(** * ParameterGrid (model_selection.py): a shallow embedding and its properties

    The Python class [ParameterGrid] flattens a nested dictionary of candidate
    value lists into parallel lists of key paths and value lists, and offers
    iteration ([__iter__]), counting ([__len__]) and subscripting
    ([__getitem__]) over the cartesian product of the value lists.

    Modelling choices.
    - Python objects are the inductive type [value]: [None], booleans,
      integers, strings, lists and dictionaries with string keys.  A [dict] is
      an association list in insertion order (the order decides the order of
      the generated combinations).  Python dictionaries have pairwise
      distinct keys; the type does not enforce it, [wf_value] states it.
    - A raised exception is a value of [exn], one constructor per [raise]
      statement or failing built-in operation; fallible code returns
      [result].
    - A generator is the finite sequence of its suspension points, ended by
      normal exhaustion or by an exception ([generator]).  Calling a
      function whose body contains [yield] runs none of its body and returns
      a generator object ([returned]).
    - [generate_params] updates dictionaries in place; it is modelled by a
      function that returns the updated dictionary. *)

From Stdlib Require Import List ZArith Lia Bool String Ascii.
Import ListNotations.
Local Open Scope string_scope.
Local Open Scope list_scope.
Local Open Scope Z_scope.

Set Implicit Arguments.

(** ** Python values *)

Unset Elimination Schemes.
Inductive value : Type :=
| VNone : value
| VBool : bool -> value
| VInt : Z -> value
| VStr : string -> value
| VList : list value -> value
| VDict : list (string * value) -> value.
Set Elimination Schemes.

(** ** Exceptions *)

Inductive exn_class : Type :=
| TypeError | ValueError | IndexError | AttributeError | KeyError
| ZeroDivisionError.

(** One constructor per place where the program can raise. *)
Inductive exn : Type :=
| GridSpecNotDictOrList      (* __init__, line 47: TypeError *)
| IndexNotInteger            (* __getitem__, line 98: TypeError *)
| IndexOutOfRange            (* __getitem__, line 109: IndexError *)
| EmptyDict                  (* traverse_dict, line 146: ValueError *)
| EmptyValueList (key : string)  (* traverse_dict, line 154: ValueError *)
| BadParameterValue          (* traverse_dict, line 161: TypeError *)
| NoLen                      (* len() of an object without __len__ *)
| NoItems                    (* .items() of an object that is not a dict *)
| ReduceEmpty                (* reduce() of empty iterable, no initial value *)
| ModuloByZero               (* ind % 0 *)
| EmptyKeyList               (* key_list[-1] of an empty list *)
| NotSubscriptable           (* membership test or item access on a non-dict *)
| MissingKey.                (* current_dict[k] of an absent key *)

Definition class_of (e : exn) : exn_class :=
  match e with
  | GridSpecNotDictOrList | IndexNotInteger | BadParameterValue
  | NoLen | ReduceEmpty | NotSubscriptable => TypeError
  | EmptyDict | EmptyValueList _ => ValueError
  | IndexOutOfRange | EmptyKeyList => IndexError
  | NoItems => AttributeError
  | ModuloByZero => ZeroDivisionError
  | MissingKey => KeyError
  end.

Inductive result (A : Type) : Type :=
| OK : A -> result A
| Err : exn -> result A.
Arguments Err {A} _.

Definition bind {A B : Type} (r : result A) (k : A -> result B) : result B :=
  match r with
  | OK a => k a
  | Err e => Err e
  end.

Notation "x <- r ;; k" := (bind r (fun x => k))
  (at level 61, r at next level, right associativity).
Notation "' p <- r ;; k" := (bind r (fun x => let p := x in k))
  (at level 61, p pattern, r at next level, right associativity).

(** ** Built-ins *)

(** [len(x)] of a Python list. *)
Definition len {A : Type} (l : list A) : Z := Z.of_nat (List.length l).

(** [k in d], [d[k]] and [d[k] = v] on a dictionary. *)
Fixpoint dict_get (k : string) (m : list (string * value)) : option value :=
  match m with
  | [] => None
  | (k', v) :: rest => if String.eqb k k' then Some v else dict_get k rest
  end.

Definition dict_mem (k : string) (m : list (string * value)) : bool :=
  match dict_get k m with Some _ => true | None => false end.

(** Assignment keeps the position of a key that is present and appends a
    new key at the end. *)
Fixpoint dict_set (m : list (string * value)) (k : string) (v : value)
  : list (string * value) :=
  match m with
  | [] => [(k, v)]
  | (k', v') :: rest =>
      if String.eqb k k' then (k', v) :: rest else (k', v') :: dict_set rest k v
  end.

(** [self.product], that is [reduce(operator.mul, xs)]: no initial value, so
    an empty [xs] raises. *)
Definition product (xs : list Z) : result Z :=
  match xs with
  | [] => Err ReduceEmpty
  | x :: rest => OK (fold_left Z.mul rest x)
  end.

(** [sum(xs)] where computing an element may raise: elements are computed
    from left to right and the first exception ends the sum. *)
Fixpoint sum (xs : list (result Z)) : result Z :=
  match xs with
  | [] => OK 0
  | x :: rest => a <- x ;; b <- sum rest ;; OK (a + b)
  end.

(** [itertools.product] applied to the unpacked list [pools]: the last pool
    varies fastest; no pool gives one empty tuple. *)
Fixpoint itertools_product {A : Type} (pools : list (list A)) : list (list A) :=
  match pools with
  | [] => [[]]
  | pool :: rest =>
      flat_map (fun x => map (cons x) (itertools_product rest)) pool
  end.

(** ** The class state *)

Definition path := list string.

(** One element of [self.items]: the tuple [(keys, values)]. *)
Definition item : Type := (list path * list (list value))%type.

Record ParameterGrid : Type := { items : list item }.

(** ** extract_items *)

(** [traverse_dict] appends to the two lists [keys] and [values] of the
    enclosing call; they are threaded here as the state [st]. *)
Fixpoint traverse_dict (current_keys : path) (current_dict : value)
  (st : item) {struct current_dict} : result item :=
  match current_dict with
  | VDict m =>
      if len m =? 0 then Err EmptyDict
      else
        (fix loop (entries : list (string * value)) (st : item)
           {struct entries} : result item :=
           match entries with
           | [] => OK st
           | (key, value) :: rest =>
               match value with
               | VDict _ =>
                   st' <- traverse_dict (current_keys ++ [key]) value st ;;
                   loop rest st'
               | VList l =>
                   if len l =? 0 then Err (EmptyValueList key)
                   else loop rest (fst st ++ [current_keys ++ [key]],
                                   snd st ++ [l])
               | _ => Err BadParameterValue
               end
           end) m st
  | VList l => if len l =? 0 then Err EmptyDict else Err NoItems
  | VStr s => if Z.of_nat (String.length s) =? 0 then Err EmptyDict
              else Err NoItems
  | VNone | VBool _ | VInt _ => Err NoLen
  end.

Definition extract_items (grid : value) : result item :=
  traverse_dict [] grid ([], []).

(** [list(map(f, xs))]: left to right, the first exception propagates. *)
Fixpoint list_map {A B : Type} (f : A -> result B) (xs : list A)
  : result (list B) :=
  match xs with
  | [] => OK []
  | x :: rest => y <- f x ;; ys <- list_map f rest ;; OK (y :: ys)
  end.

(** ** __init__ *)

Definition __init__ (param_grid : value) : result ParameterGrid :=
  match param_grid with
  | VDict _ =>
      its <- list_map extract_items [param_grid] ;; OK {| items := its |}
  | VList grids =>
      its <- list_map extract_items grids ;; OK {| items := its |}
  | _ => Err GridSpecNotDictOrList
  end.

(** ** generate_params *)

(** The body of the loop over one [(key_list, v)] pair, started at
    [current_dict]: walk [key_list[:-1]], creating missing intermediate
    dictionaries, then store [v] under [key_list[-1]].  The source updates the
    dictionaries in place; the updated dictionary is returned here. *)
Fixpoint set_path (current_dict : value) (key_list : path) (v : value)
  {struct key_list} : result value :=
  match key_list with
  | [] => Err EmptyKeyList
  | k :: later =>
      match later with
      | [] =>
          match current_dict with
          | VDict m => OK (VDict (dict_set m k v))
          | _ => Err NotSubscriptable
          end
      | _ :: _ =>
          match current_dict with
          | VDict m =>
              let m1 := if dict_mem k m then m else dict_set m k (VDict []) in
              match dict_get k m1 with
              | Some child =>
                  child' <- set_path child later v ;;
                  OK (VDict (dict_set m1 k child'))
              | None => Err MissingKey
              end
          | _ => Err NotSubscriptable
          end
      end
  end.

Fixpoint generate_params_loop (pairs : list (path * value)) (params : value)
  : result value :=
  match pairs with
  | [] => OK params
  | (key_list, v) :: rest =>
      params' <- set_path params key_list v ;;
      generate_params_loop rest params'
  end.

(** [zip(keys, values)] stops at the shorter list, as [combine] does. *)
Definition generate_params (keys : list path) (values : list value)
  : result value :=
  generate_params_loop (combine keys values) (VDict []).

(** ** Generators *)

Inductive generator : Type :=
| Stop : generator                          (* the body ran to its end *)
| Raise : exn -> generator                  (* the body raised *)
| Yield : value -> generator -> generator.  (* suspended at a [yield] *)

(** [list(g)]: every value yielded, or the exception that ended [g]. *)
Fixpoint list_of (g : generator) : result (list value) :=
  match g with
  | Stop => OK []
  | Raise e => Err e
  | Yield v rest => l <- list_of rest ;; OK (v :: l)
  end.

(** What a call hands back to its caller. *)
Inductive returned : Type :=
| Object : value -> returned
| GeneratorObject : generator -> returned.

(** ** __iter__ *)

(** The inner [for value_tuple in values] loop, followed by [after]. *)
Fixpoint yield_params (keys : list path) (tuples : list (list value))
  (after : generator) : generator :=
  match tuples with
  | [] => after
  | value_tuple :: rest =>
      match generate_params keys value_tuple with
      | OK params => Yield params (yield_params keys rest after)
      | Err e => Raise e
      end
  end.

Fixpoint iter_items (its : list item) : generator :=
  match its with
  | [] => Stop
  | (keys, values) :: rest =>
      yield_params keys (itertools_product values) (iter_items rest)
  end.

Definition __iter__ (self : ParameterGrid) : generator :=
  iter_items (items self).

(** ** __len__ *)

(** [self.product(len(value_list) for value_list in values)]. *)
Definition subtotal_of (values : list (list value)) : result Z :=
  product (map (@len value) values).

(** The value the method computes (the built-in [len] would further require
    it to fit a machine index). *)
Definition __len__ (self : ParameterGrid) : result Z :=
  sum (map (fun it : item => subtotal_of (snd it)) (items self)).

(** ** __getitem__ *)

(** [isinstance(ind, int)]; [bool] is a subclass of [int]. *)
Definition as_int (ind : value) : option Z :=
  match ind with
  | VInt z => Some z
  | VBool b => Some (Z.b2z b)
  | _ => None
  end.

(** The loop [for i in reversed(range(size))]: position [i] is filled after
    every later position, from the index left by them.  Returns [value_list]
    and the final [ind].  The subscript [ind % ways[i]] is within the list, so
    the default of [nth] is never read. *)
Fixpoint decompose (values : list (list value)) (ind : Z)
  : result (list value * Z) :=
  match values with
  | [] => OK ([], ind)
  | value_list_i :: later =>
      '(filled, ind) <- decompose later ind ;;
      let ways_i := len value_list_i in
      if ways_i =? 0 then Err ModuloByZero
      else OK (nth (Z.to_nat (ind mod ways_i)) value_list_i VNone :: filled,
               ind / ways_i)
  end.

(** The loop over [self.items] (lines 111-123); [ind] is one variable for
    the whole loop, and nothing leaves the loop after the [yield]. *)
Fixpoint getitem_loop (its : list item) (ind : Z) : generator :=
  match its with
  | [] => Stop
  | (keys, values) :: rest =>
      match subtotal_of values with
      | Err e => Raise e
      | OK subtotal =>
          if ind >=? subtotal then getitem_loop rest (ind - subtotal)
          else
            match decompose values ind with
            | Err e => Raise e
            | OK (value_list, ind') =>
                match generate_params keys value_list with
                | Err e => Raise e
                | OK params => Yield params (getitem_loop rest ind')
                end
            end
      end
  end.

(** The body of [__getitem__] (lines 97-123). *)
Definition getitem_body (self : ParameterGrid) (ind : value) : generator :=
  match as_int ind with
  | None => Raise IndexNotInteger
  | Some ind =>
      match __len__ self with
      | Err e => Raise e
      | OK total =>
          let ind := if ind <? 0 then ind + total else ind in
          if ind >=? total then Raise IndexOutOfRange
          else getitem_loop (items self) ind
      end
  end.

(** The body contains [yield]: the call runs none of it and returns a
    generator object. *)
Definition __getitem__ (self : ParameterGrid) (ind : value) : result returned :=
  OK (GeneratorObject (getitem_body self ind)).

(** [next(g)] on a fresh generator object: the first yielded value, or the
    exception raised before any [yield] ([None] when the body ends without
    yielding: StopIteration). *)
Definition first_step (g : generator) : option (result value) :=
  match g with
  | Stop => None
  | Raise e => Some (Err e)
  | Yield v _ => Some (OK v)
  end.

(** ** Well-formed Python values: the keys of a dictionary are distinct *)

Fixpoint distinct (ks : list string) : bool :=
  match ks with
  | [] => true
  | k :: rest => negb (existsb (String.eqb k) rest) && distinct rest
  end.

Fixpoint wf_value (v : value) : bool :=
  match v with
  | VDict m =>
      distinct (map fst m)
      && (fix all (entries : list (string * value)) : bool :=
            match entries with
            | [] => true
            | (_, x) :: rest => wf_value x && all rest
            end) m
  | VList l =>
      (fix all (elements : list value) : bool :=
         match elements with
         | [] => true
         | x :: rest => wf_value x && all rest
         end) l
  | _ => true
  end.

(** ** The examples of the class docstring, and a small grid *)

Definition grid_ab : value :=
  VDict [("a", VDict [("b", VList [VInt 1; VInt 2]);
                      ("c", VList [VBool true; VBool false])])].

Definition grid_kernel : value :=
  VList [VDict [("kernel", VList [VStr "linear"])];
         VDict [("kernel", VList [VStr "rbf"]);
                ("gamma", VList [VInt 1; VInt 10])]].

Definition pg_kernel : ParameterGrid :=
  {| items := [([["kernel"]], [[VStr "linear"]]);
               ([["kernel"]; ["gamma"]], [[VStr "rbf"]; [VInt 1; VInt 10]])] |}.

(** The three combinations of [grid_kernel]. *)
Definition linear : value := VDict [("kernel", VStr "linear")].
Definition rbf_1 : value := VDict [("kernel", VStr "rbf"); ("gamma", VInt 1)].
Definition rbf_10 : value := VDict [("kernel", VStr "rbf"); ("gamma", VInt 10)].

Definition grid_a12 : value := VDict [("a", VList [VInt 1; VInt 2])].
Definition pg_a12 : ParameterGrid :=
  {| items := [([["a"]], [[VInt 1; VInt 2]])] |}.

(** * Vocabulary of the properties *)

(** ** Errors and rejected inputs *)

(** InvalidGridError: one of the three [raise] statements of
    [traverse_dict]. *)
Definition InvalidGridError (e : exn) : Prop :=
  e = EmptyDict \/ (exists key, e = EmptyValueList key) \/ e = BadParameterValue.

(** A Grid with an empty mapping at some level or an empty value list. *)
Fixpoint has_empty (grid : value) : bool :=
  match grid with
  | VDict m =>
      (len m =? 0)
      || (fix any (entries : list (string * value)) : bool :=
            match entries with
            | [] => false
            | (_, v) :: rest =>
                match v with
                | VDict _ => has_empty v
                | VList l => len l =? 0
                | _ => false
                end || any rest
            end) m
  | _ => false
  end.

Definition is_dict (v : value) : bool :=
  match v with VDict _ => true | _ => false end.

(** The Grids of a GridSpec: a lone dictionary or the elements of a list. *)
Definition grids_of (param_grid : value) : list value :=
  match param_grid with
  | VDict _ => [param_grid]
  | VList grids => grids
  | _ => []
  end.

(** A dictionary or a list of dictionaries. *)
Definition is_gridspec (param_grid : value) : bool :=
  (is_dict param_grid
   || match param_grid with VList _ => true | _ => false end)
  && forallb is_dict (grids_of param_grid).

(** ** Positions in the iteration *)

(** The number of tuples of [itertools.product] over [values]. *)
Definition card (values : list (list value)) : Z :=
  len (itertools_product values).

(** The tuple at position [ind] of the product, for [0 <= ind < card]. *)
Definition tuple_at (values : list (list value)) (ind : Z) : list value :=
  nth (Z.to_nat ind) (itertools_product values) [].

(** The index after the adjustment of lines 106-107. *)
Definition adjusted (ind total : Z) : Z :=
  if ind <? 0 then ind + total else ind.

(** ** How a generator ends *)

(** The exception that ends [g], if any. *)
Fixpoint outcome (g : generator) : option exn :=
  match g with
  | Stop => None
  | Raise e => Some e
  | Yield _ rest => outcome rest
  end.

(** ** Key paths *)

(** [p] is an initial segment of [q] (possibly [q] itself). *)
Definition is_prefix (p q : path) : Prop := exists r, q = p ++ r.

(** No path is an initial segment of a later one. *)
Definition prefix_free (ps : list path) : Prop :=
  ForallOrdPairs (fun p q => ~ is_prefix p q) ps.

(** The key paths are in order and none is an initial segment of a later
    one: what [extract_items] gives for a dictionary with distinct keys. *)
Definition good_keys (keys : list path) : Prop :=
  prefix_free keys /\ Forall (fun p => p <> []) keys.

(** ** What construction establishes *)

(** Every normalized Grid has at least one value list, as many paths as
    value lists, and no empty value list. *)
Definition nonempty_item (it : item) : Prop :=
  snd it <> [] /\
  List.length (fst it) = List.length (snd it) /\
  Forall (fun value_list => value_list <> []) (snd it).

Definition good_item (it : item) : Prop :=
  nonempty_item it /\ good_keys (fst it).

(** ** The sequence of combinations *)

(** The dictionary built for one tuple ([generate_params] succeeds on the
    paths of a constructed grid, see [generate_params_ok]). *)
Definition params_of (keys : list path) (value_tuple : list value) : value :=
  match generate_params keys value_tuple with
  | OK params => params
  | Err _ => VNone
  end.

(** The combinations of one Grid, and of all Grids, in order. *)
Definition combos (it : item) : list value :=
  map (params_of (fst it)) (itertools_product (snd it)).

Definition all_combos (its : list item) : list value := flat_map combos its.

Definition total_card (its : list item) : Z :=
  fold_right (fun it n => card (snd it) + n) 0 its.

(** The generator that yields the values of [vs] and goes on as [after]. *)
Fixpoint yields (vs : list value) (after : generator) : generator :=
  match vs with
  | [] => after
  | v :: rest => Yield v (yields rest after)
  end.

(** The index-0 combination of a Grid. *)
Definition first_combo (it : item) : value :=
  params_of (fst it) (tuple_at (snd it) 0).

(** * Definitions used in the proofs *)

(** ** Induction on values *)

Section ValueInduction.

Variable P : value -> Prop.
Hypothesis P_None : P VNone.
Hypothesis P_Bool : forall b, P (VBool b).
Hypothesis P_Int : forall z, P (VInt z).
Hypothesis P_Str : forall s, P (VStr s).
Hypothesis P_List : forall l, Forall P l -> P (VList l).
Hypothesis P_Dict : forall m, Forall (fun kv => P (snd kv)) m -> P (VDict m).

Fixpoint value_ind (v : value) : P v :=
  match v with
  | VNone => P_None
  | VBool b => P_Bool b
  | VInt z => P_Int z
  | VStr s => P_Str s
  | VList l =>
      P_List
        ((fix go (l : list value) : Forall P l :=
            match l with
            | [] => Forall_nil P
            | x :: rest => Forall_cons x (value_ind x) (go rest)
            end) l)
  | VDict m =>
      P_Dict
        ((fix go (m : list (string * value))
            : Forall (fun kv => P (snd kv)) m :=
            match m with
            | [] => Forall_nil _
            | kv :: rest => Forall_cons kv (value_ind (snd kv)) (go rest)
            end) m)
  end.

End ValueInduction.

(** ** The inner loops of the nested fixpoints, by name *)

(** The loop of [traverse_dict] over the entries of one dictionary. *)
Definition traverse_entries (current_keys : path) :=
  fix loop (entries : list (string * value)) (st : item)
    {struct entries} : result item :=
    match entries with
    | [] => OK st
    | (key, value) :: rest =>
        match value with
        | VDict _ =>
            st' <- traverse_dict (current_keys ++ [key]) value st ;;
            loop rest st'
        | VList l =>
            if len l =? 0 then Err (EmptyValueList key)
            else loop rest (fst st ++ [current_keys ++ [key]], snd st ++ [l])
        | _ => Err BadParameterValue
        end
    end.

Definition wf_entries :=
  fix all (entries : list (string * value)) : bool :=
    match entries with
    | [] => true
    | (_, x) :: rest => wf_value x && all rest
    end.

(** [has_empty] over the entries of one dictionary. *)
Definition any_empty :=
  fix any (entries : list (string * value)) : bool :=
    match entries with
    | [] => false
    | (_, v) :: rest =>
        match v with
        | VDict _ => has_empty v
        | VList l => len l =? 0
        | _ => false
        end || any rest
    end.

(** ** The traversal *)

(** What a successful traversal appended to the state. *)
Record appended (st st' : item) (nk : list path)
  (nv : list (list value)) : Prop := {
  app_state : st' = (fst st ++ nk, snd st ++ nv);
  app_length : List.length nk = List.length nv;
  app_values : Forall (fun value_list => value_list <> []) nv;
}.

Definition traverse_dict_spec (d : value) : Prop :=
  forall ck st st', traverse_dict ck d st = OK st' ->
  exists nk nv,
    appended st st' nk nv /\ nk <> [] /\
    Forall (fun p => exists k r, p = ck ++ k :: r) nk /\
    (wf_value d = true -> prefix_free nk).

Definition traverse_entries_spec (m : list (string * value)) : Prop :=
  forall ck st st', traverse_entries ck m st = OK st' ->
  exists nk nv,
    appended st st' nk nv /\ (m <> [] -> nk <> []) /\
    Forall (fun p => exists k r, In k (map fst m) /\ p = ck ++ k :: r) nk /\
    (distinct (map fst m) = true -> wf_entries m = true -> prefix_free nk).

(** Traversing a dictionary raises nothing but the three errors of
    [traverse_dict], and raises when there is something empty. *)
Definition traverse_dict_rejects (d : value) : Prop :=
  forall ck st,
    (forall e, traverse_dict ck d st = Err e -> is_dict d = true ->
               InvalidGridError e) /\
    (has_empty d = true -> forall st', traverse_dict ck d st <> OK st').

(** ** The walk of generate_params *)

(** The dictionary reached by one step of the walk along [key_list[:-1]]. *)
Definition descend (m : list (string * value)) (k : string) : value :=
  match dict_get k m with Some child => child | None => VDict [] end.

Definition ensure (m : list (string * value)) (k : string)
  : list (string * value) :=
  if dict_mem k m then m else dict_set m k (VDict []).

(** Storing under [q] succeeds from [d], whatever the value. *)
Definition ok_path (d : value) (q : path) : Prop :=
  forall v, exists d', set_path d q v = OK d'.

(** * Vocabulary of the further properties *)

(** A Grid that [traverse_dict] accepts: a non-empty dictionary whose values
    are non-empty lists or accepted dictionaries. *)
Fixpoint valid_grid (grid : value) : bool :=
  match grid with
  | VDict m =>
      negb (len m =? 0)
      && (fix all (entries : list (string * value)) : bool :=
            match entries with
            | [] => true
            | (_, v) :: rest =>
                match v with
                | VDict _ => valid_grid v
                | VList l => negb (len l =? 0)
                | _ => false
                end && all rest
            end) m
  | _ => false
  end.

Definition valid_entries :=
  fix all (entries : list (string * value)) : bool :=
    match entries with
    | [] => true
    | (_, v) :: rest =>
        match v with
        | VDict _ => valid_grid v
        | VList l => negb (len l =? 0)
        | _ => false
        end && all rest
    end.

(** The value lists of a dictionary with the key path of each, depth first
    and in insertion order, the paths starting with [ck]. *)
Fixpoint leaves (ck : path) (d : value) : list (path * list value) :=
  match d with
  | VDict m =>
      (fix go (entries : list (string * value)) : list (path * list value) :=
         match entries with
         | [] => []
         | (key, v) :: rest =>
             match v with
             | VDict _ => leaves (ck ++ [key]) v ++ go rest
             | VList l => (ck ++ [key], l) :: go rest
             | _ => go rest
             end
         end) m
  | _ => []
  end.

Definition leaves_entries (ck : path) :=
  fix go (entries : list (string * value)) : list (path * list value) :=
    match entries with
    | [] => []
    | (key, v) :: rest =>
        match v with
        | VDict _ => leaves (ck ++ [key]) v ++ go rest
        | VList l => (ck ++ [key], l) :: go rest
        | _ => go rest
        end
    end.

(** The state of [traverse_dict] after appending the pairs [ls]. *)
Definition extend (st : item) (ls : list (path * list value)) : item :=
  (fst st ++ map fst ls, snd st ++ map snd ls).

(** What the traversal does, by validity of the dictionary. *)
Definition traverse_dict_decided (d : value) : Prop :=
  forall ck st,
    (valid_grid d = true ->
     traverse_dict ck d st = OK (extend st (leaves ck d))) /\
    (valid_grid d = false -> exists e, traverse_dict ck d st = Err e).

Definition prepend (ck : path) (pl : path * list value) : path * list value :=
  (ck ++ fst pl, snd pl).

(** Neither path is an initial segment of the other. *)
Definition incomparable (p q : path) : Prop :=
  ~ is_prefix p q /\ ~ is_prefix q p.

(** [params[k1][k2]...[kn]] for the path [[k1; ...; kn]]: [None] when a key
    is missing or a value on the way is not a dictionary. *)
Fixpoint get_path (d : value) (p : path) : option value :=
  match p with
  | [] => Some d
  | k :: rest =>
      match d with
      | VDict m =>
          match dict_get k m with
          | Some child => get_path child rest
          | None => None
          end
      | _ => None
      end
  end.

(** The dictionary [{k1: l1, ..., kn: ln}] of value lists. *)
Definition flat_grid (kls : list (string * list value)) : value :=
  VDict (map (fun kl => (fst kl, VList (snd kl))) kls).

(** The product of the lengths of the value lists. *)
Definition radix (values : list (list value)) : Z :=
  fold_right Z.mul 1 (map (@len value) values).

(** A pair of [zip(keys, values)] with its path put under [key]. *)
Definition nest_pair (key : string) (pv : path * value) : path * value :=
  (key :: fst pv, snd pv).

(** * Proofs *)

(** ** The result monad *)

Lemma bind_OK (A B : Type) (r : result A) (k : A -> result B) (b : B) :
  bind r k = OK b -> exists a, r = OK a /\ k a = OK b.
Proof. destruct r as [a|e]; simpl; [eauto | discriminate]. Qed.

(** ** extract_items: what a successful traversal appends *)

Lemma traverse_dict_VDict ck m st :
  traverse_dict ck (VDict m) st =
  if len m =? 0 then Err EmptyDict else traverse_entries ck m st.
Proof. reflexivity. Qed.

Lemma traverse_entries_cons ck key value rest st :
  traverse_entries ck ((key, value) :: rest) st =
  match value with
  | VDict _ =>
      st' <- traverse_dict (ck ++ [key]) value st ;;
      traverse_entries ck rest st'
  | VList l =>
      if len l =? 0 then Err (EmptyValueList key)
      else traverse_entries ck rest (fst st ++ [ck ++ [key]], snd st ++ [l])
  | _ => Err BadParameterValue
  end.
Proof. reflexivity. Qed.

Lemma len_0 (A : Type) (l : list A) : (len l =? 0) = true <-> l = [].
Proof.
  unfold len. rewrite Z.eqb_eq. destruct l; simpl; split; intros H;
    try reflexivity; try discriminate; lia.
Qed.

Lemma len_pos (A : Type) (l : list A) : (len l =? 0) = false <-> l <> [].
Proof.
  rewrite <- (len_0 l). destruct (len l =? 0); split; congruence.
Qed.

Lemma wf_value_VDict m :
  wf_value (VDict m) = distinct (map fst m) && wf_entries m.
Proof. reflexivity. Qed.

Lemma distinct_cons k ks :
  distinct (k :: ks) = true -> ~ In k ks /\ distinct ks = true.
Proof.
  simpl. intros H. apply andb_true_iff in H as [H1 H2]. split; [|exact H2].
  intros Hin. apply negb_true_iff in H1.
  assert (existsb (String.eqb k) ks = true); [|congruence].
  apply existsb_exists. exists k. split; [exact Hin | apply String.eqb_refl].
Qed.

Lemma ForallOrdPairs_app (A : Type) (R : A -> A -> Prop) (l1 l2 : list A) :
  ForallOrdPairs R l1 -> ForallOrdPairs R l2 ->
  (forall a b, In a l1 -> In b l2 -> R a b) ->
  ForallOrdPairs R (l1 ++ l2).
Proof.
  induction l1 as [|x l1 IH]; simpl; intros H1 H2 H12; [exact H2|].
  inversion H1; subst. constructor.
  - apply Forall_app. split; [assumption|].
    apply Forall_forall. intros b Hb. apply H12; auto.
  - apply IH; auto.
Qed.

Lemma is_prefix_diverge (ck : path) k r k' r' :
  is_prefix (ck ++ k :: r) (ck ++ k' :: r') -> k = k'.
Proof.
  intros [x Hx]. rewrite <- app_assoc in Hx. apply app_inv_head in Hx.
  simpl in Hx. congruence.
Qed.

Lemma appended_refl st : appended st st [] [].
Proof.
  split; simpl; auto. rewrite !app_nil_r. destruct st; reflexivity.
Qed.

Lemma appended_trans st st1 st2 nk1 nv1 nk2 nv2 :
  appended st st1 nk1 nv1 -> appended st1 st2 nk2 nv2 ->
  appended st st2 (nk1 ++ nk2) (nv1 ++ nv2).
Proof.
  intros [E1 L1 V1] [E2 L2 V2]. split.
  - rewrite E2, E1. simpl. rewrite !app_assoc. reflexivity.
  - rewrite !length_app. congruence.
  - apply Forall_app. split; assumption.
Qed.

Lemma traverse_entries_ok m :
  Forall (fun kv => traverse_dict_spec (snd kv)) m -> traverse_entries_spec m.
Proof.
  induction 1 as [|[key v] rest Hv _ IH]; intros ck st st' H.
  - injection H as <-. exists [], []. split; [|split; [|split]].
    + apply appended_refl.
    + congruence.
    + constructor.
    + intros _ _. constructor.
  - rewrite traverse_entries_cons in H. simpl in Hv.
    destruct v as [| | | |l|m']; try discriminate.
    + (* a value list *)
      destruct (len l =? 0) eqn:El; [discriminate|].
      apply IH in H as (nk & nv & Happ & _ & Hform & Hfree).
      exists ([ck ++ [key]] ++ nk), ([l] ++ nv). split; [|split; [|split]].
      * eapply appended_trans; [|exact Happ]. split; simpl; auto.
        constructor; [|constructor]. apply len_pos. exact El.
      * discriminate.
      * constructor.
        { exists key, []. split; [left; reflexivity | reflexivity]. }
        eapply Forall_impl; [|exact Hform].
        intros p (k & r & Hk & ->). exists k, r. split; [right; exact Hk|auto].
      * intros Hd Hwf. simpl map in Hd. apply distinct_cons in Hd as [Hnotin Hd].
        simpl in Hwf. apply andb_true_iff in Hwf as [_ Hwf].
        constructor; [|apply Hfree; auto].
        apply Forall_forall. intros q Hq.
        rewrite Forall_forall in Hform.
        destruct (Hform q Hq) as (k & r & Hk & ->).
        intros Hpre.
        change (ck ++ [key]) with (ck ++ key :: []) in Hpre.
        apply is_prefix_diverge in Hpre. subst. contradiction.
    + (* a nested dictionary *)
      apply bind_OK in H as (st1 & H1 & H2).
      apply Hv in H1 as (nk1 & nv1 & Happ1 & Hne1 & Hform1 & Hfree1).
      apply IH in H2 as (nk2 & nv2 & Happ2 & _ & Hform2 & Hfree2).
      exists (nk1 ++ nk2), (nv1 ++ nv2). split; [|split; [|split]].
      * eapply appended_trans; eassumption.
      * intros _ E. apply app_eq_nil in E as [E _]. contradiction.
      * apply Forall_app. split.
        { eapply Forall_impl; [|exact Hform1].
          intros p (k & r & ->). exists key, (k :: r).
          split; [left; reflexivity|]. rewrite <- app_assoc. reflexivity. }
        { eapply Forall_impl; [|exact Hform2].
          intros p (k & r & Hk & ->). exists k, r. split; [right; exact Hk|auto]. }
      * intros Hd Hwf. simpl map in Hd. apply distinct_cons in Hd as [Hnotin Hd].
        change (wf_entries ((key, VDict m') :: rest))
          with (wf_value (VDict m') && wf_entries rest) in Hwf.
        apply andb_true_iff in Hwf as [Hwf1 Hwf2].
        apply ForallOrdPairs_app;
          [apply Hfree1; exact Hwf1 | apply Hfree2; assumption |].
        intros p q Hp Hq Hpre.
        rewrite Forall_forall in Hform1, Hform2.
        destruct (Hform1 p Hp) as (k1 & r1 & ->).
        destruct (Hform2 q Hq) as (k2 & r2 & Hk2 & ->).
        rewrite <- app_assoc in Hpre. simpl in Hpre.
        apply is_prefix_diverge in Hpre. subst. contradiction.
Qed.

Lemma traverse_dict_ok d : traverse_dict_spec d.
Proof.
  induction d as [|b|z|s|l _|m IH] using value_ind; intros ck st st' H;
    try discriminate.
  - simpl in H. destruct (Z.of_nat (String.length s) =? 0); discriminate.
  - simpl in H. destruct (len l =? 0); discriminate.
  - rewrite traverse_dict_VDict in H.
    destruct (len m =? 0) eqn:Em; [discriminate|].
    apply traverse_entries_ok in H as (nk & nv & Happ & Hne & Hform & Hfree);
      [|exact IH].
    exists nk, nv. split; [|split; [|split]]; auto.
    + apply Hne. apply len_pos. exact Em.
    + eapply Forall_impl; [|exact Hform]. intros p (k & r & _ & ->). eauto.
    + intros Hwf. rewrite wf_value_VDict in Hwf.
      apply andb_true_iff in Hwf as [Hd Hw]. auto.
Qed.

(** ** generate_params never fails on the paths of a dictionary *)

Lemma dict_get_set_same m k v : dict_get k (dict_set m k v) = Some v.
Proof.
  induction m as [|[k' v'] m IH]; simpl.
  - rewrite String.eqb_refl. reflexivity.
  - destruct (String.eqb k k') eqn:E; simpl; rewrite E; auto.
Qed.

Lemma dict_get_set_other m k k' v :
  k <> k' -> dict_get k' (dict_set m k v) = dict_get k' m.
Proof.
  intros Hne. induction m as [|[k0 v0] m IH]; simpl.
  - destruct (String.eqb k' k) eqn:E; [|reflexivity].
    apply String.eqb_eq in E. congruence.
  - destruct (String.eqb k k0) eqn:E; simpl.
    + apply String.eqb_eq in E. subst k0.
      destruct (String.eqb k' k) eqn:E'; [|reflexivity].
      apply String.eqb_eq in E'. congruence.
    + rewrite IH. reflexivity.
Qed.

Lemma dict_get_ensure m k : dict_get k (ensure m k) = Some (descend m k).
Proof.
  unfold ensure, descend, dict_mem. destruct (dict_get k m) eqn:E.
  - exact E.
  - apply dict_get_set_same.
Qed.

Lemma set_path_long m k k2 r v :
  set_path (VDict m) (k :: k2 :: r) v =
  (child' <- set_path (descend m k) (k2 :: r) v ;;
   OK (VDict (dict_set (ensure m k) k child'))).
Proof.
  change (set_path (VDict m) (k :: k2 :: r) v) with
    (match dict_get k (ensure m k) with
     | Some child =>
         child' <- set_path child (k2 :: r) v ;;
         OK (VDict (dict_set (ensure m k) k child'))
     | None => Err MissingKey
     end).
  rewrite dict_get_ensure. reflexivity.
Qed.

Lemma descend_set_same m k c : descend (dict_set m k c) k = c.
Proof. unfold descend. rewrite dict_get_set_same. reflexivity. Qed.

Lemma descend_set_other m k k' c :
  k <> k' -> descend (dict_set m k c) k' = descend m k'.
Proof. intros H. unfold descend. rewrite dict_get_set_other; auto. Qed.

Lemma descend_ensure_other m k k' :
  k <> k' -> descend (ensure m k) k' = descend m k'.
Proof.
  intros H. unfold ensure. destruct (dict_mem k m); [reflexivity|].
  apply descend_set_other. exact H.
Qed.

Lemma ok_path_nil d : ~ ok_path d [].
Proof. intros H. destruct (H VNone) as [d' Hd']. discriminate. Qed.

Lemma ok_path_single m k : ok_path (VDict m) [k].
Proof. intros v. simpl. eauto. Qed.

Lemma ok_path_long m k k2 r :
  ok_path (VDict m) (k :: k2 :: r) <-> ok_path (descend m k) (k2 :: r).
Proof.
  split; intros H v; specialize (H v).
  - destruct H as [d' H]. rewrite set_path_long in H.
    apply bind_OK in H as (c & Hc & _). eauto.
  - destruct H as [c Hc]. rewrite set_path_long, Hc. simpl. eauto.
Qed.

Lemma ok_path_not_dict d q :
  ok_path d q -> exists m, d = VDict m.
Proof.
  intros H. destruct (H VNone) as [d' Hd'].
  destruct q as [|k [|k2 r]]; [discriminate| |];
    destruct d; try discriminate; eauto.
Qed.

Lemma ok_path_fresh q : q <> [] -> ok_path (VDict []) q.
Proof.
  induction q as [|k [|k2 r] IH]; intros Hq; [congruence| |].
  - apply ok_path_single.
  - apply ok_path_long. apply IH. discriminate.
Qed.

Lemma is_prefix_cons k p q : is_prefix p q -> is_prefix (k :: p) (k :: q).
Proof. intros [r ->]. exists r. reflexivity. Qed.

(** A store under [q] keeps every path that [q] is not an initial segment
    of storable. *)
Lemma set_path_keeps_ok q : forall d v d' q',
  set_path d q v = OK d' -> ~ is_prefix q q' -> ok_path d q' -> ok_path d' q'.
Proof.
  induction q as [|k [|k2 r] IH]; intros d v d' q' Hset Hpre Hok.
  - discriminate.
  - (* q = [k] *)
    destruct (ok_path_not_dict Hok) as [m ->]. simpl in Hset.
    injection Hset as <-.
    destruct q' as [|k' [|k2' r']].
    + destruct (ok_path_nil Hok).
    + apply ok_path_single.
    + assert (Hne : k <> k').
      { intros ->. apply Hpre. exists (k2' :: r'). reflexivity. }
      apply ok_path_long. apply ok_path_long in Hok.
      rewrite descend_set_other; auto.
  - (* q = k :: k2 :: r *)
    destruct (ok_path_not_dict Hok) as [m ->].
    rewrite set_path_long in Hset.
    apply bind_OK in Hset as (c & Hc & Hd'). injection Hd' as <-.
    destruct q' as [|k' [|k2' r']].
    + destruct (ok_path_nil Hok).
    + apply ok_path_single.
    + apply ok_path_long. apply ok_path_long in Hok.
      destruct (String.eqb_spec k k') as [<-|Hne].
      * rewrite descend_set_same.
        eapply IH; [exact Hc| |exact Hok].
        intros Hp. apply Hpre. apply is_prefix_cons. exact Hp.
      * rewrite descend_set_other, descend_ensure_other; auto.
Qed.

Lemma generate_params_loop_ok keys : forall values d,
  prefix_free keys -> Forall (ok_path d) keys ->
  exists params, generate_params_loop (combine keys values) d = OK params.
Proof.
  induction keys as [|q keys IH]; intros values d Hfree Hok.
  - simpl. eauto.
  - destruct values as [|v values]; [simpl; eauto|].
    simpl. inversion Hfree as [|? ? Hq Hrest]; subst.
    inversion Hok as [|? ? Hokq Hokrest]; subst.
    destruct (Hokq v) as [d' Hd']. rewrite Hd'. simpl.
    apply IH; [exact Hrest|].
    rewrite Forall_forall in *. intros q' Hq'.
    eapply set_path_keeps_ok; [exact Hd'|apply Hq; exact Hq'|auto].
Qed.

Lemma generate_params_ok keys values :
  good_keys keys -> exists params, generate_params keys values = OK params.
Proof.
  intros [Hfree Hne]. apply generate_params_loop_ok; [exact Hfree|].
  eapply Forall_impl; [|exact Hne]. intros p. apply ok_path_fresh.
Qed.

(** ** Counting the cartesian product *)

Lemma length_flat_map_uniform (A B : Type) (f : A -> list B) (n : nat) l :
  (forall x, List.length (f x) = n) ->
  List.length (flat_map f l) = (List.length l * n)%nat.
Proof.
  intros Hf. induction l as [|x l IH]; simpl; [reflexivity|].
  rewrite length_app, Hf, IH. reflexivity.
Qed.

Lemma card_nil : card [] = 1.
Proof. reflexivity. Qed.

Lemma card_cons value_list values :
  card (value_list :: values) = len value_list * card values.
Proof.
  unfold card, len. simpl.
  rewrite (@length_flat_map_uniform _ _ _ (List.length (itertools_product values))).
  - apply Nat2Z.inj_mul.
  - intros x. apply length_map.
Qed.

Lemma card_pos values :
  Forall (fun value_list => value_list <> []) values -> 1 <= card values.
Proof.
  induction 1 as [|value_list values Hne _ IH].
  - rewrite card_nil. lia.
  - rewrite card_cons. apply len_pos in Hne.
    assert (0 <= len value_list) by (unfold len; lia).
    apply Z.eqb_neq in Hne. nia.
Qed.

Lemma fold_left_mul xs x : fold_left Z.mul xs x = x * fold_right Z.mul 1 xs.
Proof.
  revert x. induction xs as [|y xs IH]; intros x; simpl; [lia|].
  rewrite IH. lia.
Qed.

Lemma card_fold values : card values = fold_right Z.mul 1 (map (@len value) values).
Proof.
  induction values as [|value_list values IH]; [reflexivity|].
  rewrite card_cons, IH. reflexivity.
Qed.

(** The closed form of the source is the number of tuples, except that it
    raises when there is no value list at all. *)
Lemma subtotal_of_card values :
  values <> [] -> subtotal_of values = OK (card values).
Proof.
  destruct values as [|value_list values]; [congruence|]. intros _.
  unfold subtotal_of. simpl. rewrite fold_left_mul, card_cons, card_fold.
  reflexivity.
Qed.

(** ** Mixed-radix decomposition against the order of itertools.product *)

Lemma nth_flat_map_uniform (A B : Type) (f : A -> list B) (n : nat)
  (l : list A) (dA : A) (dB : B) :
  (forall x, List.length (f x) = n) ->
  forall i j, (i < List.length l)%nat -> (j < n)%nat ->
  nth (i * n + j) (flat_map f l) dB = nth j (f (nth i l dA)) dB.
Proof.
  intros Hf. induction l as [|x l IH]; intros i j Hi Hj; simpl in Hi; [lia|].
  simpl flat_map. destruct i as [|i].
  - simpl. apply app_nth1. rewrite Hf. exact Hj.
  - rewrite app_nth2; rewrite Hf; [|simpl; lia].
    replace (S i * n + j - n)%nat with (i * n + j)%nat by (simpl; lia).
    simpl nth. apply IH; lia.
Qed.

Lemma nth_itertools_product_cons (value_list : list value) values i j :
  (i < List.length value_list)%nat ->
  (j < List.length (itertools_product values))%nat ->
  nth (i * List.length (itertools_product values) + j)
      (itertools_product (value_list :: values)) [] =
  nth i value_list VNone :: nth j (itertools_product values) [].
Proof.
  intros Hi Hj. simpl itertools_product.
  rewrite (@nth_flat_map_uniform _ _ _ (List.length (itertools_product values))
             value_list VNone); auto.
  - rewrite (nth_indep _ [] (nth i value_list VNone :: [])).
    + apply (map_nth (cons (nth i value_list VNone))).
    + rewrite length_map. exact Hj.
  - intros x. apply length_map.
Qed.

Lemma decompose_spec values :
  Forall (fun value_list => value_list <> []) values ->
  forall ind,
    decompose values ind =
    OK (tuple_at values (ind mod card values), ind / card values).
Proof.
  induction 1 as [|value_list values Hne Hall IH]; intros ind.
  - simpl. rewrite card_nil, Z.mod_1_r, Z.div_1_r. reflexivity.
  - simpl decompose. rewrite IH. simpl bind.
    assert (Hw : 0 < len value_list).
    { apply len_pos in Hne. apply Z.eqb_neq in Hne. unfold len in *. lia. }
    assert (Hc : 0 < card values) by (apply card_pos in Hall; lia).
    replace (len value_list =? 0) with false by (symmetry; apply Z.eqb_neq; lia).
    rewrite card_cons, (Z.mul_comm (len value_list)).
    rewrite Z.div_div by lia. f_equal. f_equal.
    rewrite Z.rem_mul_r by lia.
    pose proof (Z.mod_pos_bound ind (card values) Hc) as Hj.
    pose proof (Z.mod_pos_bound (ind / card values) (len value_list) Hw) as Hi.
    unfold tuple_at.
    replace (Z.to_nat (ind mod card values
                       + card values * ((ind / card values) mod len value_list)))
      with (Z.to_nat ((ind / card values) mod len value_list)
            * List.length (itertools_product values)
            + Z.to_nat (ind mod card values))%nat.
    + symmetry. apply nth_itertools_product_cons.
      * unfold len in *. lia.
      * unfold card, len in *. lia.
    + unfold card, len in *. nia.
Qed.

(** ** What construction establishes *)

Lemma extract_items_shape grid it :
  extract_items grid = OK it ->
  nonempty_item it /\ (wf_value grid = true -> good_keys (fst it)).
Proof.
  intros H. apply traverse_dict_ok in H
    as (nk & nv & [E L V] & Hne & Hform & Hfree).
  simpl in E. subst it. simpl. split; [split; [|split]|]; auto.
  - simpl. intros ->. destruct nk; [congruence|discriminate].
  - intros Hwf. split; [auto|].
    eapply Forall_impl; [|exact Hform]. intros p (k & r & ->). discriminate.
Qed.

Lemma list_map_OK (A B : Type) (f : A -> result B) xs ys :
  list_map f xs = OK ys -> Forall2 (fun x y => f x = OK y) xs ys.
Proof.
  revert ys. induction xs as [|x xs IH]; intros ys H; simpl in H.
  - injection H as <-. constructor.
  - apply bind_OK in H as (y & Hy & H). apply bind_OK in H as (ys' & Hys & H).
    injection H as <-. constructor; auto.
Qed.

Lemma init_items param_grid self :
  __init__ param_grid = OK self ->
  Forall2 (fun grid it => extract_items grid = OK it)
          (grids_of param_grid) (items self).
Proof.
  intros H. destruct param_grid; try discriminate; unfold __init__ in H;
    apply bind_OK in H as (its & Hits & H); injection H as <-;
    apply list_map_OK in Hits; exact Hits.
Qed.

Lemma wf_value_grids param_grid :
  wf_value param_grid = true ->
  Forall (fun grid => wf_value grid = true) (grids_of param_grid).
Proof.
  destruct param_grid as [|b|z|s|l|m]; simpl grids_of; try constructor; auto.
  simpl. induction l as [|x l IH]; intros H; constructor;
    apply andb_true_iff in H as [H1 H2]; auto.
Qed.

Lemma init_nonempty param_grid self :
  __init__ param_grid = OK self -> Forall nonempty_item (items self).
Proof.
  intros H. apply init_items in H.
  induction H as [|grid it grids its Hit _ IH]; constructor; auto.
  apply extract_items_shape in Hit. tauto.
Qed.

Lemma init_good param_grid self :
  wf_value param_grid = true -> __init__ param_grid = OK self ->
  Forall good_item (items self).
Proof.
  intros Hwf H. apply init_items in H. apply wf_value_grids in Hwf.
  induction H as [|grid it grids its Hit _ IH]; constructor;
    inversion Hwf; subst; auto.
  apply extract_items_shape in Hit. split; tauto.
Qed.

(** ** The sequence of combinations *)

Lemma yields_app vs ws after :
  yields (vs ++ ws) after = yields vs (yields ws after).
Proof. induction vs as [|v vs IH]; simpl; congruence. Qed.

Lemma list_of_yields vs : list_of (yields vs Stop) = OK vs.
Proof. induction vs as [|v vs IH]; simpl; [|rewrite IH]; reflexivity. Qed.

Lemma generate_params_params_of keys value_tuple :
  good_keys keys ->
  generate_params keys value_tuple = OK (params_of keys value_tuple).
Proof.
  intros H. unfold params_of.
  destruct (generate_params_ok value_tuple H) as [p ->]. reflexivity.
Qed.

Lemma yield_params_yields keys tuples after :
  good_keys keys ->
  yield_params keys tuples after = yields (map (params_of keys) tuples) after.
Proof.
  intros H. induction tuples as [|t tuples IH]; simpl; [reflexivity|].
  rewrite generate_params_params_of, IH; auto.
Qed.

Lemma iter_items_yields its :
  Forall good_item its -> iter_items its = yields (all_combos its) Stop.
Proof.
  induction 1 as [|[keys values] its [_ Hk] _ IH]; simpl; [reflexivity|].
  rewrite yields_app, yield_params_yields, IH; auto.
Qed.

Lemma len_combos it : len (combos it) = card (snd it).
Proof. unfold combos, card, len. rewrite length_map. reflexivity. Qed.

Lemma len_all_combos its : len (all_combos its) = total_card its.
Proof.
  induction its as [|it its IH]; simpl; [reflexivity|].
  rewrite <- IH, <- len_combos. unfold len. rewrite length_app. lia.
Qed.

Lemma len_total its :
  Forall nonempty_item its ->
  sum (map (fun it : item => subtotal_of (snd it)) its) = OK (total_card its).
Proof.
  induction 1 as [|it its (Hne & _) _ IH]; simpl; [reflexivity|].
  rewrite subtotal_of_card, IH; auto.
Qed.

Lemma total_card_nonneg its : 0 <= total_card its.
Proof. rewrite <- len_all_combos. unfold len. lia. Qed.

Lemma total_card_app its1 its2 :
  total_card (its1 ++ its2) = total_card its1 + total_card its2.
Proof. induction its1 as [|it its1 IH]; simpl; lia. Qed.

(** ** The loop of __getitem__ *)

(** Grids wholly before the index are skipped. *)
Lemma getitem_loop_skip before : forall rest ind,
  Forall nonempty_item before -> total_card before <= ind ->
  getitem_loop (before ++ rest) ind = getitem_loop rest (ind - total_card before).
Proof.
  induction before as [|[keys values] before IH]; intros rest ind Hall Hind.
  - simpl. f_equal. lia.
  - inversion Hall as [|? ? (Hne & _) Hall']; subst. simpl in Hne, Hind |- *.
    rewrite subtotal_of_card by exact Hne.
    pose proof (total_card_nonneg before).
    replace (ind >=? card values) with true by (symmetry; lia).
    rewrite IH by (auto; lia). f_equal. lia.
Qed.

(** In the Grid the index falls in, the loop yields the combination of the
    tuple at [ind mod card] and goes on with [ind / card]. *)
Lemma getitem_loop_hit keys values rest ind :
  good_item (keys, values) -> ind < card values ->
  getitem_loop ((keys, values) :: rest) ind =
  Yield (params_of keys (tuple_at values (ind mod card values)))
        (getitem_loop rest (ind / card values)).
Proof.
  intros [(Hne & _ & Hall) Hk] Hind. simpl in Hne, Hall, Hk |- *.
  rewrite subtotal_of_card by exact Hne.
  replace (ind >=? card values) with false by (symmetry; lia).
  rewrite decompose_spec by exact Hall.
  rewrite generate_params_params_of by exact Hk. reflexivity.
Qed.

(** After a yield the index is 0, which every later Grid takes. *)
Lemma getitem_loop_zero its :
  Forall good_item its ->
  getitem_loop its 0 = yields (map first_combo its) Stop.
Proof.
  induction 1 as [|[keys values] its Hit _ IH]; [reflexivity|].
  pose proof Hit as [(_ & _ & Hall) _]. apply card_pos in Hall. simpl in Hall.
  rewrite getitem_loop_hit by (auto; lia).
  rewrite Z.mod_0_l, Z.div_0_l by lia. rewrite IH. reflexivity.
Qed.

Lemma nth_combos it ind :
  0 <= ind < card (snd it) ->
  nth (Z.to_nat ind) (combos it) VNone = params_of (fst it) (tuple_at (snd it) ind).
Proof.
  intros H. unfold combos, tuple_at.
  rewrite (nth_indep _ VNone (params_of (fst it) [])).
  - apply (map_nth (params_of (fst it))).
  - rewrite length_map. unfold card, len in H. lia.
Qed.

Lemma nth_all_combos before it rest ind :
  total_card before <= ind < total_card before + card (snd it) ->
  nth (Z.to_nat ind) (all_combos (before ++ it :: rest)) VNone =
  params_of (fst it) (tuple_at (snd it) (ind - total_card before)).
Proof.
  intros H. unfold all_combos. rewrite flat_map_app. simpl flat_map.
  pose proof (len_all_combos before) as Hb. pose proof (len_combos it) as Hi.
  pose proof (total_card_nonneg before).
  unfold all_combos, len in Hb, Hi.
  rewrite app_nth2 by lia. rewrite app_nth1 by lia.
  replace (Z.to_nat ind - List.length (flat_map combos before))%nat
    with (Z.to_nat (ind - total_card before)) by lia.
  apply nth_combos. lia.
Qed.

(** The shape of the generator of the loop for an index inside the Grid
    [it]: the combination at that position of the iteration, then the
    index-0 combination of every later Grid. *)
Lemma getitem_loop_inside before it rest ind :
  Forall good_item (before ++ it :: rest) ->
  total_card before <= ind < total_card before + card (snd it) ->
  getitem_loop (before ++ it :: rest) ind =
  Yield (nth (Z.to_nat ind) (all_combos (before ++ it :: rest)) VNone)
        (yields (map first_combo rest) Stop).
Proof.
  intros Hall H. apply Forall_app in Hall as [Hb Hr].
  inversion Hr as [|? ? Hit Hrest]; subst.
  rewrite getitem_loop_skip; [|eapply Forall_impl; [|exact Hb]; intros ? [? _]; auto|lia].
  destruct it as [keys values]. simpl in H.
  rewrite getitem_loop_hit by (auto; lia).
  rewrite Z.mod_small, Z.div_small by lia.
  rewrite getitem_loop_zero by exact Hrest.
  rewrite nth_all_combos by (simpl; lia). reflexivity.
Qed.

(** Every position of the iteration falls in exactly one Grid. *)
Lemma locate its : forall ind,
  0 <= ind < total_card its ->
  exists before it rest,
    its = before ++ it :: rest /\
    total_card before <= ind < total_card before + card (snd it).
Proof.
  induction its as [|it its IH]; intros ind H; simpl in H; [lia|].
  destruct (Z_lt_dec ind (card (snd it))) as [Hlt|Hge].
  - exists [], it, its. simpl. split; [reflexivity|lia].
  - destruct (IH (ind - card (snd it))) as (before & it' & rest & -> & Hr);
      [lia|].
    exists (it :: before), it', rest. simpl. split; [reflexivity|lia].
Qed.

(** ** Rejected grids *)

Lemma has_empty_VDict m :
  has_empty (VDict m) = (len m =? 0) || any_empty m.
Proof. reflexivity. Qed.

Lemma traverse_entries_rejects m :
  Forall (fun kv => traverse_dict_rejects (snd kv)) m ->
  forall ck st,
    (forall e, traverse_entries ck m st = Err e -> InvalidGridError e) /\
    (any_empty m = true -> forall st', traverse_entries ck m st <> OK st').
Proof.
  induction 1 as [|[key v] rest Hv _ IH]; intros ck st.
  - split; [discriminate|]. simpl. discriminate.
  - rewrite traverse_entries_cons. simpl in Hv.
    destruct v as [|b|z|s|l|m'];
      try (split; [intros e [= <-]; right; right; reflexivity|discriminate]).
    + (* a value list *)
      simpl any_empty. fold any_empty. destruct (len l =? 0) eqn:El.
      * split; [|discriminate]. intros e [= <-]. right; left; eauto.
      * simpl. apply IH.
    + (* a nested dictionary *)
      simpl any_empty. fold any_empty.
      destruct (traverse_dict (ck ++ [key]) (VDict m') st) as [st1|e1] eqn:E1;
        simpl.
      * split; [apply IH|]. intros Hany st'.
        apply orb_true_iff in Hany as [Hany|Hany]; [|apply IH; exact Hany].
        destruct (Hv (ck ++ [key]) st) as [_ Hv2].
        rewrite E1 in Hv2. destruct (Hv2 Hany st1). reflexivity.
      * split; [|discriminate]. intros e [= <-].
        destruct (Hv (ck ++ [key]) st) as [Hv1 _]. apply Hv1; auto.
Qed.

Lemma traverse_dict_rejects_all d : traverse_dict_rejects d.
Proof.
  induction d as [|b|z|s|l _|m IH] using value_ind; intros ck st;
    try (split; discriminate).
  rewrite traverse_dict_VDict, has_empty_VDict.
  destruct (len m =? 0) eqn:Em.
  - split; [|discriminate]. intros e [= <-] _. left. reflexivity.
  - simpl. destruct (traverse_entries_rejects IH ck st) as [H1 H2].
    split; auto.
Qed.

Lemma extract_items_rejects grid :
  is_dict grid = true ->
  (forall e, extract_items grid = Err e -> InvalidGridError e) /\
  (has_empty grid = true -> exists e, extract_items grid = Err e).
Proof.
  intros Hd. destruct (traverse_dict_rejects_all grid [] ([], [])) as [H1 H2].
  split; [intros e He; apply H1; auto|].
  intros Hany. unfold extract_items.
  destruct (traverse_dict [] grid ([], [])) as [st'|e] eqn:E; [|eauto].
  destruct (H2 Hany st'). reflexivity.
Qed.

Lemma list_map_rejects grids :
  forallb is_dict grids = true -> existsb has_empty grids = true ->
  exists e, list_map extract_items grids = Err e /\ InvalidGridError e.
Proof.
  induction grids as [|grid grids IH]; simpl; [discriminate|].
  intros Hd Hany. apply andb_true_iff in Hd as [Hd Hds].
  destruct (extract_items_rejects grid Hd) as [H1 H2].
  destruct (extract_items grid) as [it|e] eqn:E.
  - apply orb_true_iff in Hany as [Hany|Hany].
    + destruct (H2 Hany) as [e He]. discriminate.
    + destruct (IH Hds Hany) as (e & He & Hinv).
      exists e. simpl. rewrite He. auto.
  - exists e. simpl. auto.
Qed.

(** ** No empty reduce *)

Lemma set_path_not_reduce key_list : forall d v,
  set_path d key_list v <> Err ReduceEmpty.
Proof.
  induction key_list as [|k [|k2 r] IH]; intros d v; [discriminate| |].
  - destruct d; discriminate.
  - destruct d as [|b|z|s|l|m]; try discriminate.
    rewrite set_path_long.
    destruct (set_path (descend m k) (k2 :: r) v) as [c|e] eqn:E;
      [discriminate|].
    simpl. intros [= ->]. apply (IH _ _ E).
Qed.

Lemma generate_params_not_reduce keys values :
  generate_params keys values <> Err ReduceEmpty.
Proof.
  unfold generate_params. generalize (VDict []).
  generalize (combine keys values). intros pairs.
  induction pairs as [|[q v] pairs IH]; intros d; [discriminate|].
  simpl. destruct (set_path d q v) as [d'|e] eqn:E; simpl; [apply IH|].
  intros [= ->]. apply (set_path_not_reduce _ _ _ E).
Qed.

Lemma decompose_not_reduce values : forall ind,
  decompose values ind <> Err ReduceEmpty.
Proof.
  induction values as [|value_list values IH]; intros ind; [discriminate|].
  simpl. destruct (decompose values ind) as [[filled ind']|e] eqn:E; simpl.
  - destruct (len value_list =? 0); discriminate.
  - intros [= ->]. apply (IH _ E).
Qed.

Lemma getitem_loop_not_reduce its :
  Forall nonempty_item its ->
  forall ind, outcome (getitem_loop its ind) <> Some ReduceEmpty.
Proof.
  induction 1 as [|[keys values] its (Hne & _) _ IH]; intros ind;
    [discriminate|].
  simpl in Hne |- *. rewrite subtotal_of_card by exact Hne.
  destruct (ind >=? card values); [apply IH|].
  destruct (decompose values ind) as [[value_list ind']|e] eqn:E.
  - destruct (generate_params keys value_list) as [p|e] eqn:G; simpl.
    + apply IH.
    + intros [= ->]. apply (generate_params_not_reduce _ _ G).
  - simpl. intros [= ->]. apply (decompose_not_reduce _ _ E).
Qed.

(** ** The body of __getitem__ on a constructed grid *)

Lemma len_constructed self :
  Forall nonempty_item (items self) ->
  __len__ self = OK (total_card (items self)).
Proof. intros H. unfold __len__. apply len_total. exact H. Qed.

Lemma iter_constructed self :
  Forall good_item (items self) ->
  list_of (__iter__ self) = OK (all_combos (items self)).
Proof.
  intros H. unfold __iter__. rewrite iter_items_yields by exact H.
  apply list_of_yields.
Qed.

Lemma good_nonempty its : Forall good_item its -> Forall nonempty_item its.
Proof. apply Forall_impl. intros it [H _]. exact H. Qed.

Lemma getitem_body_int self ind :
  Forall nonempty_item (items self) ->
  getitem_body self (VInt ind) =
  if adjusted ind (total_card (items self)) >=? total_card (items self)
  then Raise IndexOutOfRange
  else getitem_loop (items self) (adjusted ind (total_card (items self))).
Proof.
  intros H. unfold getitem_body. simpl as_int.
  rewrite len_constructed by exact H. reflexivity.
Qed.

(** The algorithm of subscripting is right about the first value: for an
    index within range the generator first yields the combination at that
    position of the iteration. *)
Lemma getitem_first_yield param_grid self combinations ind :
  wf_value param_grid = true -> __init__ param_grid = OK self ->
  list_of (__iter__ self) = OK combinations ->
  0 <= ind < len combinations ->
  first_step (getitem_body self (VInt ind)) =
  Some (OK (nth (Z.to_nat ind) combinations VNone)).
Proof.
  intros Hwf Hinit Hiter Hind.
  pose proof (init_good _ Hwf Hinit) as Hgood.
  rewrite iter_constructed in Hiter by exact Hgood. injection Hiter as <-.
  rewrite len_all_combos in Hind.
  rewrite getitem_body_int by (apply good_nonempty; exact Hgood).
  unfold adjusted. replace (ind <? 0) with false by (symmetry; lia).
  replace (ind >=? total_card (items self)) with false by (symmetry; lia).
  destruct (locate (items self) Hind) as (before & it & rest & E & Hpos).
  rewrite E in *. rewrite getitem_loop_inside by assumption. reflexivity.
Qed.

(** An index at or above the total makes the body raise IndexError before
    any value is yielded. *)
Lemma getitem_above_range param_grid self total ind :
  __init__ param_grid = OK self -> __len__ self = OK total -> total <= ind ->
  getitem_body self (VInt ind) = Raise IndexOutOfRange.
Proof.
  intros Hinit Hlen Hind. unfold getitem_body. simpl as_int. rewrite Hlen.
  assert (0 <= total).
  { rewrite len_constructed in Hlen by (eapply init_nonempty; eauto).
    injection Hlen as <-. apply total_card_nonneg. }
  replace (ind <? 0) with false by (symmetry; lia).
  replace (ind >=? total) with true by (symmetry; lia). reflexivity.
Qed.

Lemma getitem_loop_negative its :
  Forall good_item its ->
  forall ind, ind < 0 -> outcome (getitem_loop its ind) = None.
Proof.
  induction 1 as [|[keys values] its Hit _ IH]; intros ind Hind;
    [reflexivity|].
  pose proof Hit as [(_ & _ & Hall) _]. apply card_pos in Hall. simpl in Hall.
  rewrite getitem_loop_hit by (auto; lia). simpl. apply IH.
  apply Z.div_lt_upper_bound; lia.
Qed.

(** An index below [-total] is still negative after the adjustment; no
    test stops it, and the body ends without raising. *)
Lemma getitem_below_range param_grid self total ind :
  wf_value param_grid = true -> __init__ param_grid = OK self ->
  __len__ self = OK total -> ind < - total ->
  outcome (getitem_body self (VInt ind)) = None.
Proof.
  intros Hwf Hinit Hlen Hind.
  pose proof (init_good _ Hwf Hinit) as Hgood.
  pose proof (good_nonempty Hgood) as Hne.
  rewrite len_constructed in Hlen by exact Hne. injection Hlen as <-.
  pose proof (total_card_nonneg (items self)).
  rewrite getitem_body_int by exact Hne. unfold adjusted.
  replace (ind <? 0) with true by (symmetry; lia).
  replace (ind + total_card (items self) >=? total_card (items self))
    with false by (symmetry; lia).
  apply getitem_loop_negative; [exact Hgood|lia].
Qed.

(** A subscript that is not an [int] makes the body raise TypeError at its
    first step. *)
Lemma getitem_not_int self ind :
  as_int ind = None -> getitem_body self ind = Raise IndexNotInteger.
Proof. intros H. unfold getitem_body. rewrite H. reflexivity. Qed.

(** The call itself never raises and never returns a dictionary. *)
Lemma getitem_returns_generator self ind :
  exists g, __getitem__ self ind = OK (GeneratorObject g).
Proof. eexists. reflexivity. Qed.

(** * The properties of the specification *)

(** C1.  Subscripting does not return a single Combination.  On the grid of
    the docstring, [ParameterGrid(grid)[0]] is a generator object, and
    exhausting it gives two values: the combination at position 0 of the
    iteration and then the first combination of the second Grid.  (What
    holds of the first value is [getitem_first_yield].) *)
Theorem getitem_kernel_0_yields_two :
  __init__ grid_kernel = OK pg_kernel /\
  list_of (__iter__ pg_kernel) = OK [linear; rbf_1; rbf_10] /\
  __getitem__ pg_kernel (VInt 0) =
    OK (GeneratorObject (Yield linear (Yield rbf_1 Stop))) /\
  __getitem__ pg_kernel (VInt 0) <> OK (Object linear).
Proof. repeat split. discriminate. Qed.

(** C2.  For a constructed grid, [__len__] (the sum over the Grids of the
    product of the lengths of the value lists) is the number of values that
    exhausting [__iter__] produces. *)
Theorem len_counts_iteration param_grid self :
  wf_value param_grid = true -> __init__ param_grid = OK self ->
  exists combinations,
    list_of (__iter__ self) = OK combinations /\
    __len__ self = OK (len combinations).
Proof.
  intros Hwf Hinit. pose proof (init_good _ Hwf Hinit) as Hgood.
  exists (all_combos (items self)). split.
  - apply iter_constructed. exact Hgood.
  - rewrite len_all_combos. apply len_constructed. apply good_nonempty.
    exact Hgood.
Qed.

Lemma len_counts_iteration_witness :
  wf_value grid_kernel = true /\ __init__ grid_kernel = OK pg_kernel /\
  exists combinations,
    list_of (__iter__ pg_kernel) = OK combinations /\
    __len__ pg_kernel = OK (len combinations).
Proof.
  split; [reflexivity|]. split; [reflexivity|].
  apply (@len_counts_iteration grid_kernel pg_kernel); reflexivity.
Defined.

(** C3.  The first example of the docstring: the grid
    [{'a': {'b': [1, 2], 'c': [True, False]}}] is flattened to the paths
    [a.b], [a.c] in depth-first key order, and iteration yields the four
    combinations in the order of the docstring, [c] varying fastest. *)
Theorem iter_grid_ab :
  exists self,
    __init__ grid_ab = OK self /\
    items self = [([["a"; "b"]; ["a"; "c"]],
                   [[VInt 1; VInt 2]; [VBool true; VBool false]])] /\
    list_of (__iter__ self) =
      OK [VDict [("a", VDict [("b", VInt 1); ("c", VBool true)])];
          VDict [("a", VDict [("b", VInt 1); ("c", VBool false)])];
          VDict [("a", VDict [("b", VInt 2); ("c", VBool true)])];
          VDict [("a", VDict [("b", VInt 2); ("c", VBool false)])]] /\
    __len__ self = OK 4.
Proof. eexists. repeat split. Qed.

(** C4.  The second example of the docstring: iteration and length are as
    stated, the Grids one after the other; but [ParameterGrid(grid)[1]] is a
    generator object (whose only value is the expected combination), not the
    dictionary the doctest compares it with. *)
Theorem getitem_kernel_1_is_generator :
  __init__ grid_kernel = OK pg_kernel /\
  list_of (__iter__ pg_kernel) = OK [linear; rbf_1; rbf_10] /\
  __len__ pg_kernel = OK 3 /\
  __getitem__ pg_kernel (VInt 1) = OK (GeneratorObject (Yield rbf_1 Stop)) /\
  __getitem__ pg_kernel (VInt 1) <> OK (Object rbf_1).
Proof. repeat split. discriminate. Qed.

(** C5.  No IndexError below the range: on [{'a': [1, 2]}], of length 2,
    the subscript [-3] is [-1] after the adjustment, passes the only test
    ([ind >= total]) and the generator yields [{'a': 2}] and ends.  (Above
    the range the body does raise IndexError, at its first step:
    [getitem_above_range]; below it never raises: [getitem_below_range].) *)
Theorem getitem_below_range_no_error :
  __init__ grid_a12 = OK pg_a12 /\
  __len__ pg_a12 = OK 2 /\
  __getitem__ pg_a12 (VInt (- 2 - 1)) =
    OK (GeneratorObject (Yield (VDict [("a", VInt 2)]) Stop)) /\
  outcome (getitem_body pg_a12 (VInt (- 2 - 1))) = None.
Proof. repeat split. Qed.



(** C7.  The TypeError for a subscript that is not an integer is not raised
    by the call: [ParameterGrid(grid)['x']] returns a generator object, and
    the error is raised when its first value is asked for. *)
Theorem getitem_not_int_deferred :
  as_int (VStr "x") = None /\
  __getitem__ pg_kernel (VStr "x") = OK (GeneratorObject (Raise IndexNotInteger)) /\
  first_step (getitem_body pg_kernel (VStr "x")) = Some (Err IndexNotInteger).
Proof. repeat split. Qed.

(** C8.  Construction from a dictionary or a list of dictionaries that has
    an empty dictionary at some level, or an empty value list, raises one of
    the errors of [traverse_dict]; construction from the empty list of Grids
    succeeds, with length 0. *)
Theorem init_rejects_empty param_grid :
  is_gridspec param_grid = true ->
  existsb has_empty (grids_of param_grid) = true ->
  (exists e, __init__ param_grid = Err e /\ InvalidGridError e) /\
  (exists self, __init__ (VList []) = OK self /\ __len__ self = OK 0).
Proof.
  intros Hspec Hany. split; [|eexists; split; reflexivity].
  unfold is_gridspec in Hspec. apply andb_true_iff in Hspec as [Hshape Hd].
  destruct (list_map_rejects _ Hd Hany) as (e & He & Hinv).
  exists e. split; [|exact Hinv].
  destruct param_grid as [|b|z|s|l|m]; try discriminate;
    unfold __init__; simpl grids_of in He; rewrite He; reflexivity.
Qed.

Lemma init_rejects_empty_witness :
  is_gridspec (VList [grid_a12; VDict [("a", VDict [])]]) = true /\
  existsb has_empty (grids_of (VList [grid_a12; VDict [("a", VDict [])]]))
    = true /\
  (exists e, __init__ (VList [grid_a12; VDict [("a", VDict [])]]) = Err e /\
             InvalidGridError e) /\
  (exists self, __init__ (VList []) = OK self /\ __len__ self = OK 0).
Proof.
  split; [reflexivity|]. split; [reflexivity|].
  apply (@init_rejects_empty (VList [grid_a12; VDict [("a", VDict [])]]));
    reflexivity.
Defined.

(** The three rejected inputs that the specification names, with the
    exception each raises. *)
Example init_empty_dict : __init__ (VDict []) = Err EmptyDict.
Proof. reflexivity. Qed.

Example init_empty_grid_in_list : __init__ (VList [VDict []]) = Err EmptyDict.
Proof. reflexivity. Qed.

Example init_empty_value_list :
  __init__ (VDict [("a", VList [])]) = Err (EmptyValueList "a").
Proof. reflexivity. Qed.

Lemma first_combo_iter it :
  good_item it ->
  exists others, list_of (iter_items [it]) = OK (first_combo it :: others).
Proof.
  intros Hit. pose proof Hit as [(_ & _ & Hall) _]. apply card_pos in Hall.
  rewrite iter_items_yields by (constructor; [exact Hit|constructor]).
  rewrite list_of_yields. unfold all_combos. simpl. rewrite app_nil_r.
  unfold combos, first_combo, tuple_at, card, len in *.
  destruct (itertools_product (snd it)) as [|t ts]; [simpl in Hall; lia|].
  simpl. eauto.
Qed.

(** C9.  On a constructed grid, for a subscript whose position falls in a
    Grid that is not the last one, exhausting the generator that the call
    returns gives more than one value: the combination at that position of
    the iteration, then, for every later Grid, its index-0 combination. *)
Theorem getitem_goes_on_after_yield param_grid self before it rest ind total :
  wf_value param_grid = true -> __init__ param_grid = OK self ->
  items self = before ++ it :: rest -> rest <> [] ->
  __len__ self = OK total ->
  total_card before <= adjusted ind total < total_card before + card (snd it) ->
  exists combinations g later,
    list_of (__iter__ self) = OK combinations /\
    __getitem__ self (VInt ind) = OK (GeneratorObject g) /\
    list_of g =
      OK (nth (Z.to_nat (adjusted ind total)) combinations VNone :: later) /\
    later <> [] /\
    Forall2 (fun grid first =>
               exists others, list_of (iter_items [grid]) = OK (first :: others))
            rest later.
Proof.
  intros Hwf Hinit E Hrest Hlen Hpos.
  pose proof (init_good _ Hwf Hinit) as Hgood.
  pose proof (good_nonempty Hgood) as Hne.
  rewrite len_constructed in Hlen by exact Hne. injection Hlen as <-.
  exists (all_combos (items self)), (getitem_body self (VInt ind)),
    (map first_combo rest).
  split; [apply iter_constructed; exact Hgood|].
  split; [reflexivity|].
  rewrite getitem_body_int by exact Hne.
  set (position := adjusted ind (total_card (items self))) in *.
  rewrite E in *. rewrite total_card_app in *. simpl total_card in *.
  pose proof (total_card_nonneg rest).
  replace (position >=? total_card before + (card (snd it) + total_card rest))
    with false by (symmetry; lia).
  rewrite getitem_loop_inside by assumption.
  split; [|split].
  - simpl. rewrite list_of_yields. reflexivity.
  - destruct rest; [congruence|discriminate].
  - apply Forall_app in Hgood as [_ Hgood].
    inversion Hgood as [|? ? _ Hr]; subst. clear - Hr.
    induction Hr as [|grid rest Hg _ IH]; constructor; auto.
    apply first_combo_iter. exact Hg.
Qed.

Lemma getitem_goes_on_after_yield_witness :
  wf_value grid_kernel = true /\ __init__ grid_kernel = OK pg_kernel /\
  exists combinations g later,
    list_of (__iter__ pg_kernel) = OK combinations /\
    __getitem__ pg_kernel (VInt 0) = OK (GeneratorObject g) /\
    list_of g = OK (nth (Z.to_nat (adjusted 0 3)) combinations VNone :: later) /\
    later <> [] /\
    Forall2 (fun grid first =>
               exists others, list_of (iter_items [grid]) = OK (first :: others))
            [([["kernel"]; ["gamma"]], [[VStr "rbf"]; [VInt 1; VInt 10]])]
            later.
Proof.
  split; [reflexivity|]. split; [reflexivity|].
  apply (@getitem_goes_on_after_yield grid_kernel pg_kernel []
           ([["kernel"]], [[VStr "linear"]])
           [([["kernel"]; ["gamma"]], [[VStr "rbf"]; [VInt 1; VInt 10]])]
           0 3);
    try reflexivity; [discriminate | vm_compute; split; congruence].
Defined.

(** C10.  Every Grid of a constructed ParameterGrid has at least one path
    and one value list, so [reduce] is never applied to an empty sequence:
    each product is computed, [__len__] returns, and the generator of
    [__getitem__] never ends with the TypeError of an empty [reduce]. *)
Theorem reduce_never_empty param_grid self :
  __init__ param_grid = OK self ->
  Forall (fun it : item =>
            fst it <> [] /\ snd it <> [] /\
            exists subtotal, subtotal_of (snd it) = OK subtotal)
         (items self) /\
  (exists total, __len__ self = OK total) /\
  (forall ind, outcome (getitem_body self ind) <> Some ReduceEmpty).
Proof.
  intros Hinit. pose proof (init_nonempty _ Hinit) as Hne.
  split; [|split].
  - eapply Forall_impl; [|exact Hne].
    intros [keys values] (Hv & Hl & _). simpl in *. split; [|split; [exact Hv|]].
    + intros ->. destruct values; [congruence|discriminate].
    + rewrite subtotal_of_card by exact Hv. eauto.
  - rewrite len_constructed by exact Hne. eauto.
  - intros ind. unfold getitem_body. destruct (as_int ind) as [z|];
      [|discriminate].
    rewrite len_constructed by exact Hne.
    destruct (_ >=? _); [discriminate|].
    apply getitem_loop_not_reduce. exact Hne.
Qed.

Lemma reduce_never_empty_witness :
  __init__ grid_kernel = OK pg_kernel /\
  Forall (fun it : item =>
            fst it <> [] /\ snd it <> [] /\
            exists subtotal, subtotal_of (snd it) = OK subtotal)
         (items pg_kernel) /\
  (exists total, __len__ pg_kernel = OK total) /\
  (forall ind, outcome (getitem_body pg_kernel ind) <> Some ReduceEmpty).
Proof.
  split; [reflexivity|].
  apply (@reduce_never_empty grid_kernel pg_kernel). reflexivity.
Defined.

(** * Further properties of the code *)

(** ** The normal form of a Grid *)

Lemma extend_nil st : extend st [] = st.
Proof. destruct st. unfold extend. simpl. rewrite !app_nil_r. reflexivity. Qed.

Lemma extend_app st a b : extend (extend st a) b = extend st (a ++ b).
Proof.
  unfold extend. simpl. rewrite !map_app, !app_assoc. reflexivity.
Qed.

Lemma valid_grid_VDict m :
  valid_grid (VDict m) = negb (len m =? 0) && valid_entries m.
Proof. reflexivity. Qed.

Lemma leaves_VDict ck m : leaves ck (VDict m) = leaves_entries ck m.
Proof. reflexivity. Qed.

Lemma traverse_entries_decided m :
  Forall (fun kv => traverse_dict_decided (snd kv)) m ->
  forall ck st,
    (valid_entries m = true ->
     traverse_entries ck m st = OK (extend st (leaves_entries ck m))) /\
    (valid_entries m = false -> exists e, traverse_entries ck m st = Err e).
Proof.
  induction 1 as [|[key v] rest Hv _ IH]; intros ck st.
  - split; [|discriminate]. intros _. simpl. rewrite extend_nil. reflexivity.
  - rewrite traverse_entries_cons. simpl in Hv.
    change (valid_entries ((key, v) :: rest))
      with (match v with
            | VDict _ => valid_grid v
            | VList l => negb (len l =? 0)
            | _ => false
            end && valid_entries rest).
    change (leaves_entries ck ((key, v) :: rest))
      with (match v with
            | VDict _ => leaves (ck ++ [key]) v ++ leaves_entries ck rest
            | VList l => (ck ++ [key], l) :: leaves_entries ck rest
            | _ => leaves_entries ck rest
            end).
    destruct v as [|b|z|s|l|m'];
      try (split; [discriminate|intros _; eexists; reflexivity]).
    + (* a value list *)
      destruct (len l =? 0) eqn:El; simpl.
      * split; [discriminate|]. intros _. eexists. reflexivity.
      * destruct (IH ck (fst st ++ [ck ++ [key]], snd st ++ [l])) as [H1 H2].
        split; intros Hr.
        { rewrite H1 by exact Hr.
          change (fst st ++ [ck ++ [key]], snd st ++ [l])
            with (extend st [(ck ++ [key], l)]).
          rewrite extend_app. reflexivity. }
        { apply H2. exact Hr. }
    + (* a nested dictionary *)
      destruct (Hv (ck ++ [key]) st) as [Hv1 Hv2].
      destruct (valid_grid (VDict m')) eqn:Ev; simpl andb.
      * rewrite Hv1 by reflexivity. unfold bind.
        destruct (IH ck (extend st (leaves (ck ++ [key]) (VDict m'))))
          as [H1 H2].
        split; intros Hr.
        { rewrite H1 by exact Hr. rewrite extend_app. reflexivity. }
        { apply H2. exact Hr. }
      * split; [discriminate|]. intros _.
        destruct (Hv2 eq_refl) as [e He]. rewrite He. unfold bind. eauto.
Qed.

Lemma traverse_dict_decided_all d : traverse_dict_decided d.
Proof.
  induction d as [|b|z|s|l _|m IH] using value_ind; intros ck st;
    try (split; [discriminate|intros _; eexists; reflexivity]).
  - split; [discriminate|]. intros _. simpl.
    destruct (Z.of_nat (String.length s) =? 0); eexists; reflexivity.
  - split; [discriminate|]. intros _. simpl.
    destruct (len l =? 0); eexists; reflexivity.
  - rewrite traverse_dict_VDict, valid_grid_VDict, leaves_VDict.
    destruct (len m =? 0); simpl negb; simpl andb.
    + split; [discriminate|]. intros _. eexists; reflexivity.
    + apply traverse_entries_decided. exact IH.
Qed.

Lemma extract_items_valid grid :
  valid_grid grid = true ->
  extract_items grid =
  OK (map fst (leaves [] grid), map snd (leaves [] grid)).
Proof.
  intros H. unfold extract_items.
  destruct (traverse_dict_decided_all grid [] ([], [])) as [H1 _].
  rewrite H1 by exact H. reflexivity.
Qed.

Lemma extract_items_invalid grid :
  valid_grid grid = false -> exists e, extract_items grid = Err e.
Proof.
  intros H. destruct (traverse_dict_decided_all grid [] ([], [])) as [_ H2].
  apply H2. exact H.
Qed.

Lemma extract_items_OK_valid grid it :
  extract_items grid = OK it -> valid_grid grid = true.
Proof.
  intros H. destruct (valid_grid grid) eqn:E; [reflexivity|].
  destruct (extract_items_invalid _ E) as [e He]. congruence.
Qed.

Lemma valid_grid_is_dict grid : valid_grid grid = true -> is_dict grid = true.
Proof. destruct grid; simpl; congruence. Qed.

Lemma list_map_valid grids :
  forallb valid_grid grids = true ->
  list_map extract_items grids =
  OK (map (fun grid => (map fst (leaves [] grid), map snd (leaves [] grid)))
          grids).
Proof.
  induction grids as [|grid grids IH]; simpl; [reflexivity|].
  intros H. apply andb_true_iff in H as [Hg Hgs].
  rewrite extract_items_valid by exact Hg. simpl. rewrite IH by exact Hgs.
  reflexivity.
Qed.

Lemma list_map_OK_valid grids its :
  list_map extract_items grids = OK its -> forallb valid_grid grids = true.
Proof.
  intros H. apply list_map_OK in H.
  induction H as [|grid it grids its Hit _ IH]; [reflexivity|].
  simpl. rewrite (extract_items_OK_valid _ Hit), IH. reflexivity.
Qed.

Lemma init_list_map param_grid :
  (is_dict param_grid || match param_grid with VList _ => true | _ => false end)
  = true ->
  __init__ param_grid =
  (its <- list_map extract_items (grids_of param_grid) ;; OK {| items := its |}).
Proof. destruct param_grid; simpl; try discriminate; reflexivity. Qed.

(** X1.  Construction succeeds exactly on a dictionary or a list of
    dictionaries each of which is a valid Grid: non-empty at every level,
    with every value a non-empty list or a nested valid dictionary. *)
Theorem init_succeeds_iff param_grid :
  (exists self, __init__ param_grid = OK self) <->
  is_gridspec param_grid = true /\
  forallb valid_grid (grids_of param_grid) = true.
Proof.
  split.
  - intros [self H].
    assert (Hshape : (is_dict param_grid
                      || match param_grid with VList _ => true | _ => false end)
                     = true)
      by (destruct param_grid; try discriminate; reflexivity).
    rewrite init_list_map in H by exact Hshape.
    apply bind_OK in H as (its & Hits & _).
    apply list_map_OK_valid in Hits. split; [|exact Hits].
    unfold is_gridspec. rewrite Hshape. simpl.
    apply forallb_forall. intros grid Hin.
    apply valid_grid_is_dict.
    rewrite forallb_forall in Hits. apply Hits. exact Hin.
  - intros [Hspec Hvalid]. unfold is_gridspec in Hspec.
    apply andb_true_iff in Hspec as [Hshape _].
    rewrite init_list_map by exact Hshape.
    rewrite list_map_valid by exact Hvalid. simpl. eauto.
Qed.

Lemma init_succeeds_iff_witness :
  is_gridspec grid_kernel = true /\
  forallb valid_grid (grids_of grid_kernel) = true /\
  exists self, __init__ grid_kernel = OK self.
Proof.
  split; [reflexivity|]. split; [reflexivity|].
  apply (proj2 (init_succeeds_iff grid_kernel)). split; reflexivity.
Defined.

Lemma init_items_leaves param_grid self :
  __init__ param_grid = OK self ->
  items self =
  map (fun grid => (map fst (leaves [] grid), map snd (leaves [] grid)))
      (grids_of param_grid).
Proof.
  intros H.
  assert (Hshape : (is_dict param_grid
                    || match param_grid with VList _ => true | _ => false end)
                   = true)
    by (destruct param_grid; try discriminate; reflexivity).
  rewrite init_list_map in H by exact Hshape.
  apply bind_OK in H as (its & Hits & H). injection H as <-. simpl.
  pose proof (list_map_OK_valid _ Hits) as Hvalid.
  rewrite list_map_valid in Hits by exact Hvalid. congruence.
Qed.

(** X2.  A successful construction stores, for every Grid in order, its
    value lists and their key paths in depth-first insertion order: a
    nested dictionary is listed completely before the next key. *)
Theorem init_items_depth_first param_grid self :
  __init__ param_grid = OK self ->
  items self =
  map (fun grid => (map fst (leaves [] grid), map snd (leaves [] grid)))
      (grids_of param_grid).
Proof. apply init_items_leaves. Qed.

Lemma init_items_depth_first_witness :
  __init__ grid_ab = OK {| items := [([["a"; "b"]; ["a"; "c"]],
                         [[VInt 1; VInt 2]; [VBool true; VBool false]])] |} /\
  [([["a"; "b"]; ["a"; "c"]], [[VInt 1; VInt 2]; [VBool true; VBool false]])] =
  map (fun grid => (map fst (leaves [] grid), map snd (leaves [] grid)))
      (grids_of grid_ab).
Proof.
  split; [reflexivity|].
  apply (@init_items_depth_first grid_ab
           {| items := [([["a"; "b"]; ["a"; "c"]],
                         [[VInt 1; VInt 2]; [VBool true; VBool false]])] |}).
  reflexivity.
Defined.

(** X3.  The error of construction is the error of the first Grid that
    [extract_items] rejects; the Grids after it are not examined. *)
Theorem init_first_error good bad rest e :
  forallb valid_grid good = true -> extract_items bad = Err e ->
  __init__ (VList (good ++ bad :: rest)) = Err e.
Proof.
  intros Hgood Hbad. unfold __init__.
  assert (H : list_map extract_items (good ++ bad :: rest) = Err e).
  { induction good as [|grid good IH]; simpl.
    - rewrite Hbad. reflexivity.
    - simpl in Hgood. apply andb_true_iff in Hgood as [Hg Hgs].
      rewrite extract_items_valid by exact Hg. simpl.
      rewrite IH by exact Hgs. reflexivity. }
  rewrite H. reflexivity.
Qed.

Lemma init_first_error_witness :
  forallb valid_grid [grid_a12] = true /\
  extract_items (VInt 5) = Err NoLen /\
  __init__ (VList ([grid_a12] ++ VInt 5 :: [VDict []])) = Err NoLen.
Proof.
  split; [reflexivity|]. split; [reflexivity|].
  apply (@init_first_error [grid_a12] (VInt 5) [VDict []] NoLen); reflexivity.
Defined.

(** ** How extract_items composes *)

Lemma leaves_entries_prefix m :
  Forall (fun kv => forall ck ck',
            leaves (ck ++ ck') (snd kv) = map (prepend ck) (leaves ck' (snd kv)))
         m ->
  forall ck ck',
    leaves_entries (ck ++ ck') m = map (prepend ck) (leaves_entries ck' m).
Proof.
  induction 1 as [|[key v] rest Hv _ IH]; intros ck ck'; [reflexivity|].
  simpl in Hv.
  change (leaves_entries (ck ++ ck') ((key, v) :: rest))
    with (match v with
          | VDict _ => leaves ((ck ++ ck') ++ [key]) v
                       ++ leaves_entries (ck ++ ck') rest
          | VList l => ((ck ++ ck') ++ [key], l) :: leaves_entries (ck ++ ck') rest
          | _ => leaves_entries (ck ++ ck') rest
          end).
  change (leaves_entries ck' ((key, v) :: rest))
    with (match v with
          | VDict _ => leaves (ck' ++ [key]) v ++ leaves_entries ck' rest
          | VList l => (ck' ++ [key], l) :: leaves_entries ck' rest
          | _ => leaves_entries ck' rest
          end).
  destruct v as [|b|z|s|l|m']; try apply IH.
  - simpl map. rewrite IH. unfold prepend at 2. simpl.
    rewrite <- app_assoc. reflexivity.
  - rewrite map_app, <- IH, <- app_assoc, Hv. reflexivity.
Qed.

Lemma leaves_prefix d : forall ck ck',
  leaves (ck ++ ck') d = map (prepend ck) (leaves ck' d).
Proof.
  induction d as [|b|z|s|l _|m IH] using value_ind; intros ck ck';
    try reflexivity.
  rewrite !leaves_VDict. apply leaves_entries_prefix. exact IH.
Qed.

Lemma extract_items_nest key grid keys values :
  extract_items grid = OK (keys, values) ->
  extract_items (VDict [(key, grid)]) = OK (map (cons key) keys, values).
Proof.
  intros H. pose proof (extract_items_OK_valid _ H) as Hvalid.
  rewrite extract_items_valid in H by exact Hvalid. injection H as <- <-.
  destruct grid as [|b|z|s|l|m]; try discriminate.
  rewrite extract_items_valid.
  - rewrite leaves_VDict.
    change (leaves_entries [] [(key, VDict m)])
      with (leaves ([key] ++ []) (VDict m) ++ []).
    rewrite app_nil_r, leaves_prefix, !map_map. reflexivity.
  - rewrite valid_grid_VDict.
    change (valid_entries [(key, VDict m)])
      with (valid_grid (VDict m) && true).
    rewrite Hvalid. reflexivity.
Qed.

(** X4.  Nesting a Grid under a key puts that key in front of every one of
    its paths and keeps its value lists. *)
Theorem extract_items_nested key grid keys values :
  extract_items grid = OK (keys, values) ->
  extract_items (VDict [(key, grid)]) = OK (map (cons key) keys, values).
Proof. apply extract_items_nest. Qed.

Lemma extract_items_nested_witness :
  extract_items grid_a12 = OK ([["a"]], [[VInt 1; VInt 2]]) /\
  extract_items (VDict [("outer", grid_a12)]) =
  OK (map (cons "outer") [["a"]], [[VInt 1; VInt 2]]).
Proof.
  split; [reflexivity|].
  apply (@extract_items_nested "outer" grid_a12); reflexivity.
Defined.





(** ** Invariants of the normalized Grids *)

Lemma leaves_entries_form ck m p :
  In p (map fst (leaves_entries ck m)) ->
  exists k r, In k (map fst m) /\ p = ck ++ k :: r.
Proof.
  induction m as [|[key v] m IH]; [intros []|].
  change (leaves_entries ck ((key, v) :: m))
    with (match v with
          | VDict _ => leaves (ck ++ [key]) v ++ leaves_entries ck m
          | VList l => (ck ++ [key], l) :: leaves_entries ck m
          | _ => leaves_entries ck m
          end).
  assert (Hrest : In p (map fst (leaves_entries ck m)) ->
                  exists k r, In k (map fst ((key, v) :: m)) /\ p = ck ++ k :: r).
  { intros H. destruct (IH H) as (k & r & Hk & ->).
    exists k, r. split; [right; exact Hk|reflexivity]. }
  destruct v as [|b|z|s|l|m']; auto.
  - simpl. intros [<-|H]; [|auto].
    exists key, []. split; [left; reflexivity|reflexivity].
  - rewrite map_app, in_app_iff. intros [H|H]; [|auto].
    rewrite <- (app_nil_r (ck ++ [key])), leaves_prefix, map_map in H.
    apply in_map_iff in H as ([p0 l0] & <- & _).
    exists key, p0. split; [left; reflexivity|].
    simpl. rewrite <- app_assoc. reflexivity.
Qed.

Lemma incomparable_diverge ck k r k' r' :
  k <> k' -> incomparable (ck ++ k :: r) (ck ++ k' :: r').
Proof.
  intros Hne. split; intros H; apply is_prefix_diverge in H; congruence.
Qed.

Lemma leaves_entries_incomparable m :
  Forall (fun kv => forall ck, wf_value (snd kv) = true ->
            ForallOrdPairs incomparable (map fst (leaves ck (snd kv)))) m ->
  forall ck, distinct (map fst m) = true -> wf_entries m = true ->
  ForallOrdPairs incomparable (map fst (leaves_entries ck m)).
Proof.
  induction 1 as [|[key v] rest Hv _ IH]; intros ck Hd Hwf; [constructor|].
  simpl map in Hd. apply distinct_cons in Hd as [Hnotin Hd].
  change (wf_entries ((key, v) :: rest))
    with (wf_value v && wf_entries rest) in Hwf.
  apply andb_true_iff in Hwf as [Hwfv Hwf].
  specialize (IH ck Hd Hwf). simpl in Hv.
  change (leaves_entries ck ((key, v) :: rest))
    with (match v with
          | VDict _ => leaves (ck ++ [key]) v ++ leaves_entries ck rest
          | VList l => (ck ++ [key], l) :: leaves_entries ck rest
          | _ => leaves_entries ck rest
          end).
  assert (Hcross : forall r q, In q (map fst (leaves_entries ck rest)) ->
                               incomparable (ck ++ key :: r) q).
  { intros r q Hq. apply leaves_entries_form in Hq as (k & r' & Hk & ->).
    apply incomparable_diverge. intros ->. contradiction. }
  destruct v as [|b|z|s|l|m']; auto.
  - simpl map. constructor; [|exact IH].
    apply Forall_forall. intros q Hq. apply (Hcross [] q Hq).
  - rewrite map_app. apply ForallOrdPairs_app; auto.
    intros p q Hp Hq.
    rewrite <- (app_nil_r (ck ++ [key])), leaves_prefix, map_map in Hp.
    apply in_map_iff in Hp as ([p0 l0] & <- & _). simpl.
    rewrite <- app_assoc. apply (Hcross p0 q Hq).
Qed.

Lemma leaves_incomparable d : forall ck,
  wf_value d = true -> ForallOrdPairs incomparable (map fst (leaves ck d)).
Proof.
  induction d as [|b|z|s|l _|m IH] using value_ind; intros ck Hwf;
    try constructor.
  rewrite leaves_VDict. rewrite wf_value_VDict in Hwf.
  apply andb_true_iff in Hwf as [Hd Hw].
  apply leaves_entries_incomparable; assumption.
Qed.

(** X6.  In every normalized Grid of a constructed ParameterGrid there are
    as many key paths as value lists, no value list is empty and no key path
    is empty. *)
Theorem init_parallel_lists param_grid self :
  __init__ param_grid = OK self ->
  Forall (fun it : item =>
            List.length (fst it) = List.length (snd it) /\
            Forall (fun value_list => value_list <> []) (snd it) /\
            Forall (fun p : path => p <> []) (fst it))
         (items self).
Proof.
  intros Hinit. apply init_items in Hinit.
  induction Hinit as [|grid it grids its Hit _ IH]; constructor; [|exact IH].
  apply traverse_dict_ok in Hit as (nk & nv & [E L V] & _ & Hform & _).
  simpl in E. subst it. simpl. split; [exact L|]. split; [exact V|].
  eapply Forall_impl; [|exact Hform]. intros p (k & r & ->). discriminate.
Qed.

Lemma init_parallel_lists_witness :
  __init__ grid_kernel = OK pg_kernel /\
  Forall (fun it : item =>
            List.length (fst it) = List.length (snd it) /\
            Forall (fun value_list => value_list <> []) (snd it) /\
            Forall (fun p : path => p <> []) (fst it))
         (items pg_kernel).
Proof.
  split; [reflexivity|].
  apply (@init_parallel_lists grid_kernel pg_kernel). reflexivity.
Defined.

Lemma init_paths_free param_grid self :
  wf_value param_grid = true -> __init__ param_grid = OK self ->
  Forall (fun it : item => ForallOrdPairs incomparable (fst it)) (items self).
Proof.
  intros Hwf Hinit. rewrite (init_items_leaves _ Hinit).
  apply wf_value_grids in Hwf. apply Forall_map.
  eapply Forall_impl; [|exact Hwf]. intros grid Hg. simpl.
  apply leaves_incomparable. exact Hg.
Qed.

(** X7.  The key paths of a normalized Grid are pairwise incomparable: no
    path is an initial segment of another one, and so no two are equal
    (the keys of a Python dictionary being distinct). *)
Theorem init_paths_incomparable param_grid self :
  wf_value param_grid = true -> __init__ param_grid = OK self ->
  Forall (fun it : item => ForallOrdPairs incomparable (fst it)) (items self).
Proof. apply init_paths_free. Qed.

Lemma init_paths_incomparable_witness :
  wf_value grid_ab = true /\
  __init__ grid_ab = OK {| items := [([["a"; "b"]; ["a"; "c"]],
                         [[VInt 1; VInt 2]; [VBool true; VBool false]])] |} /\
  Forall (fun it : item => ForallOrdPairs incomparable (fst it))
         [([["a"; "b"]; ["a"; "c"]],
           [[VInt 1; VInt 2]; [VBool true; VBool false]])].
Proof.
  split; [reflexivity|]. split; [reflexivity|].
  apply (@init_paths_incomparable grid_ab
           {| items := [([["a"; "b"]; ["a"; "c"]],
                         [[VInt 1; VInt 2]; [VBool true; VBool false]])] |});
    reflexivity.
Defined.

(** ** Reading a combination back *)

Lemma get_path_cons m k r :
  get_path (VDict m) (k :: r) =
  match dict_get k m with Some child => get_path child r | None => None end.
Proof. reflexivity. Qed.

Lemma set_path_dict d q v d' :
  set_path d q v = OK d' -> exists m, d = VDict m.
Proof.
  destruct q as [|k [|k2 r]]; [discriminate| |];
    destruct d; try discriminate; eauto.
Qed.

Lemma set_path_get_same q : forall d v d',
  set_path d q v = OK d' -> get_path d' q = Some v.
Proof.
  induction q as [|k [|k2 r] IH]; intros d v d' H; [discriminate| |].
  - destruct (@set_path_dict _ _ _ _ H) as [m ->]. simpl in H. injection H as <-.
    rewrite get_path_cons, dict_get_set_same. reflexivity.
  - destruct (@set_path_dict _ _ _ _ H) as [m ->]. rewrite set_path_long in H.
    apply bind_OK in H as (c & Hc & H). injection H as <-.
    rewrite get_path_cons, dict_get_set_same. apply (IH _ _ _ Hc).
Qed.

Lemma dict_get_ensure_other m k k' :
  k <> k' -> dict_get k' (ensure m k) = dict_get k' m.
Proof.
  intros H. unfold ensure. destruct (dict_mem k m); [reflexivity|].
  apply dict_get_set_other. exact H.
Qed.

Lemma incomparable_sym p q : incomparable p q -> incomparable q p.
Proof. intros [H1 H2]. split; assumption. Qed.

Lemma incomparable_tail k p q :
  incomparable (k :: p) (k :: q) -> incomparable p q.
Proof.
  intros [H1 H2]. split; intros H; [apply H1|apply H2];
    apply is_prefix_cons; exact H.
Qed.

Lemma incomparable_nil_r p : ~ incomparable p [].
Proof. intros [_ H]. apply H. exists p. reflexivity. Qed.

Lemma incomparable_single k r : ~ incomparable [k] (k :: r).
Proof. intros [H _]. apply H. exists r. reflexivity. Qed.

(** A store under [q] leaves what is read under an incomparable path. *)
Lemma set_path_get_other q : forall d v d' q',
  set_path d q v = OK d' -> incomparable q q' ->
  get_path d' q' = get_path d q'.
Proof.
  induction q as [|k [|k2 r] IH]; intros d v d' q' H Hinc; [discriminate| |].
  - destruct (@set_path_dict _ _ _ _ H) as [m ->]. simpl in H. injection H as <-.
    destruct q' as [|k' r']; [destruct (incomparable_nil_r Hinc)|].
    rewrite !get_path_cons.
    destruct (String.eqb_spec k k') as [<-|Hne].
    + destruct (incomparable_single Hinc).
    + rewrite dict_get_set_other by exact Hne. reflexivity.
  - destruct (@set_path_dict _ _ _ _ H) as [m ->]. rewrite set_path_long in H.
    apply bind_OK in H as (c & Hc & H). injection H as <-.
    destruct q' as [|k' r']; [destruct (incomparable_nil_r Hinc)|].
    rewrite !get_path_cons.
    destruct (String.eqb_spec k k') as [<-|Hne].
    + rewrite dict_get_set_same.
      apply incomparable_tail in Hinc.
      rewrite (IH _ _ _ _ Hc Hinc). unfold descend.
      destruct (dict_get k m) as [c0|]; [reflexivity|].
      destruct r' as [|k'' r'']; [|reflexivity].
      destruct (incomparable_nil_r Hinc).
    + rewrite dict_get_set_other, dict_get_ensure_other by exact Hne.
      reflexivity.
Qed.

Lemma generate_params_loop_keeps keys : forall values d params q,
  generate_params_loop (combine keys values) d = OK params ->
  Forall (incomparable q) keys ->
  get_path params q = get_path d q.
Proof.
  induction keys as [|q1 keys IH]; intros values d params q H Hall.
  - simpl in H. injection H as <-. reflexivity.
  - destruct values as [|v1 values]; [simpl in H; injection H as <-; reflexivity|].
    simpl in H. apply bind_OK in H as (d1 & Hd1 & H).
    inversion Hall as [|? ? Hq1 Hrest]; subst.
    rewrite (IH _ _ _ _ H Hrest).
    apply (@set_path_get_other _ _ _ _ _ Hd1). apply incomparable_sym. exact Hq1.
Qed.

Lemma generate_params_loop_get keys : forall values d params,
  generate_params_loop (combine keys values) d = OK params ->
  ForallOrdPairs incomparable keys ->
  forall q v, In (q, v) (combine keys values) -> get_path params q = Some v.
Proof.
  induction keys as [|q1 keys IH]; intros values d params H Hfree q v Hin;
    [destruct Hin|].
  destruct values as [|v1 values]; [destruct Hin|].
  simpl in H, Hin. apply bind_OK in H as (d1 & Hd1 & H).
  inversion Hfree as [|? ? Hq1 Hrest]; subst.
  destruct Hin as [[= <- <-]|Hin].
  - rewrite (@generate_params_loop_keeps _ _ _ _ _ H Hq1).
    apply (@set_path_get_same _ _ _ _ Hd1).
  - apply (IH _ _ _ H Hrest _ _ Hin).
Qed.

(** X8.  In a constructed grid, the dictionary that [generate_params]
    builds from the key paths of a Grid and a tuple of values is always
    built, and reading it under each key path gives the value that the tuple
    has for that path. *)
Theorem generate_params_round_trip param_grid self keys values value_tuple :
  wf_value param_grid = true -> __init__ param_grid = OK self ->
  In (keys, values) (items self) ->
  exists params,
    generate_params keys value_tuple = OK params /\
    forall p v, In (p, v) (combine keys value_tuple) ->
                get_path params p = Some v.
Proof.
  intros Hwf Hinit Hin.
  pose proof (init_good _ Hwf Hinit) as Hgood.
  rewrite Forall_forall in Hgood. destruct (Hgood _ Hin) as [_ Hkeys].
  simpl in Hkeys.
  destruct (generate_params_ok value_tuple Hkeys) as [params Hp].
  exists params. split; [exact Hp|].
  pose proof (@init_paths_free _ _ Hwf Hinit) as Hfree.
  rewrite Forall_forall in Hfree. specialize (Hfree _ Hin).
  unfold generate_params in Hp.
  apply (@generate_params_loop_get _ _ _ _ Hp Hfree).
Qed.

Lemma generate_params_round_trip_witness :
  wf_value grid_ab = true /\
  __init__ grid_ab = OK {| items := [([["a"; "b"]; ["a"; "c"]],
                         [[VInt 1; VInt 2]; [VBool true; VBool false]])] |} /\
  exists params,
    generate_params [["a"; "b"]; ["a"; "c"]] [VInt 2; VBool true] = OK params /\
    forall p v, In (p, v) (combine [["a"; "b"]; ["a"; "c"]] [VInt 2; VBool true]) ->
                get_path params p = Some v.
Proof.
  split; [reflexivity|]. split; [reflexivity|].
  apply (@generate_params_round_trip grid_ab
           {| items := [([["a"; "b"]; ["a"; "c"]],
                         [[VInt 1; VInt 2]; [VBool true; VBool false]])] |}
           [["a"; "b"]; ["a"; "c"]]
           [[VInt 1; VInt 2]; [VBool true; VBool false]]
           [VInt 2; VBool true]);
    [reflexivity | reflexivity | left; reflexivity].
Defined.

(** ** Flat grids *)

Lemma distinct_NoDup ks : distinct ks = true -> NoDup ks.
Proof.
  induction ks as [|k ks IH]; intros H; constructor;
    apply distinct_cons in H as [H1 H2]; auto.
Qed.

Lemma dict_set_fresh m k v :
  ~ In k (map fst m) -> dict_set m k v = m ++ [(k, v)].
Proof.
  induction m as [|[k' v'] m IH]; simpl; intros H; [reflexivity|].
  destruct (String.eqb_spec k k') as [->|Hne]; [tauto|].
  rewrite IH by tauto. reflexivity.
Qed.

Lemma generate_params_loop_flat ks : forall vs m,
  NoDup (map fst m ++ ks) ->
  generate_params_loop (combine (map (fun k => [k]) ks) vs) (VDict m) =
  OK (VDict (m ++ combine ks vs)).
Proof.
  induction ks as [|k ks IH]; intros vs m Hnd; simpl.
  - rewrite app_nil_r. reflexivity.
  - destruct vs as [|v vs]; simpl; [rewrite app_nil_r; reflexivity|].
    rewrite dict_set_fresh.
    + rewrite IH.
      * rewrite <- app_assoc. reflexivity.
      * rewrite map_app, <- app_assoc. exact Hnd.
    + apply NoDup_remove_2 in Hnd. intros Hin. apply Hnd.
      apply in_or_app. left. exact Hin.
Qed.

Lemma generate_params_flat ks vs :
  distinct ks = true ->
  generate_params (map (fun k => [k]) ks) vs = OK (VDict (combine ks vs)).
Proof.
  intros H. unfold generate_params.
  rewrite generate_params_loop_flat; [reflexivity|].
  simpl. apply distinct_NoDup. exact H.
Qed.

Lemma leaves_flat kls :
  leaves_entries [] (map (fun kl => (fst kl, VList (snd kl))) kls) =
  map (fun kl => ([fst kl], snd kl)) kls.
Proof.
  induction kls as [|[k l] kls IH]; [reflexivity|].
  simpl map.
  change (leaves_entries [] ((k, VList l) :: map (fun kl => (fst kl, VList (snd kl))) kls))
    with (([] ++ [k], l)
          :: leaves_entries [] (map (fun kl => (fst kl, VList (snd kl))) kls)).
  rewrite IH. reflexivity.
Qed.

Lemma valid_flat kls :
  Forall (fun kl : string * list value => snd kl <> []) kls ->
  valid_entries (map (fun kl => (fst kl, VList (snd kl))) kls) = true.
Proof.
  induction 1 as [|[k l] kls Hl _ IH]; [reflexivity|].
  simpl map.
  change (valid_entries ((k, VList l) :: map (fun kl => (fst kl, VList (snd kl))) kls))
    with (negb (len l =? 0)
          && valid_entries (map (fun kl => (fst kl, VList (snd kl))) kls)).
  rewrite IH, andb_true_r. apply negb_true_iff. apply len_pos. exact Hl.
Qed.

Lemma yield_params_map keys (f : list value -> value) tuples after :
  (forall value_tuple, generate_params keys value_tuple = OK (f value_tuple)) ->
  yield_params keys tuples after = yields (map f tuples) after.
Proof.
  intros Hf. induction tuples as [|t tuples IH]; simpl; [reflexivity|].
  rewrite Hf, IH. reflexivity.
Qed.

(** X9.  A flat grid, a non-empty dictionary with distinct keys and
    non-empty value lists, is normalized to one single-key path per key, and
    iteration yields, for every tuple of [itertools.product] over the value
    lists in order, the dictionary of the keys, in their order, to the values
    of the tuple. *)
Theorem iter_flat_grid kls :
  kls <> [] -> distinct (map fst kls) = true ->
  Forall (fun kl : string * list value => snd kl <> []) kls ->
  exists self,
    __init__ (flat_grid kls) = OK self /\
    items self = [(map (fun kl => [fst kl]) kls, map snd kls)] /\
    list_of (__iter__ self) =
    OK (map (fun value_tuple => VDict (combine (map fst kls) value_tuple))
            (itertools_product (map snd kls))).
Proof.
  intros Hne Hd Hall.
  assert (Hvalid : valid_grid (flat_grid kls) = true).
  { unfold flat_grid. rewrite valid_grid_VDict, valid_flat by exact Hall.
    rewrite andb_true_r. apply negb_true_iff. apply len_pos.
    destruct kls; [congruence|discriminate]. }
  assert (Hex : extract_items (flat_grid kls) =
                OK (map (fun kl => [fst kl]) kls, map snd kls)).
  { rewrite extract_items_valid by exact Hvalid. unfold flat_grid.
    rewrite leaves_VDict, leaves_flat, !map_map. reflexivity. }
  exists {| items := [(map (fun kl => [fst kl]) kls, map snd kls)] |}.
  split; [|split; [reflexivity|]].
  - unfold flat_grid in *. unfold __init__, list_map. rewrite Hex. reflexivity.
  - unfold __iter__. simpl.
    rewrite (@yield_params_map _
               (fun value_tuple => VDict (combine (map fst kls) value_tuple))).
    + apply list_of_yields.
    + intros value_tuple.
      rewrite <- (generate_params_flat _ value_tuple Hd), map_map. reflexivity.
Qed.

Lemma iter_flat_grid_witness :
  [("kernel", [VStr "rbf"]); ("gamma", [VInt 1; VInt 10])] <> [] /\
  distinct (map fst [("kernel", [VStr "rbf"]); ("gamma", [VInt 1; VInt 10])])
  = true /\
  exists self,
    __init__ (flat_grid [("kernel", [VStr "rbf"]); ("gamma", [VInt 1; VInt 10])])
    = OK self /\
    items self =
    [(map (fun kl : string * list value => [fst kl])
          [("kernel", [VStr "rbf"]); ("gamma", [VInt 1; VInt 10])],
      map snd [("kernel", [VStr "rbf"]); ("gamma", [VInt 1; VInt 10])])] /\
    list_of (__iter__ self) =
    OK (map (fun value_tuple =>
               VDict (combine
                        (map fst [("kernel", [VStr "rbf"]);
                                  ("gamma", [VInt 1; VInt 10])])
                        value_tuple))
            (itertools_product
               (map snd [("kernel", [VStr "rbf"]);
                         ("gamma", [VInt 1; VInt 10])]))).
Proof.
  split; [discriminate|]. split; [reflexivity|].
  apply (@iter_flat_grid [("kernel", [VStr "rbf"]); ("gamma", [VInt 1; VInt 10])]);
    [discriminate | reflexivity |].
  repeat constructor; discriminate.
Defined.

(** ** Subscripting a constructed grid *)

Lemma outcome_yields vs : outcome (yields vs Stop) = None.
Proof. induction vs as [|v vs IH]; simpl; auto. Qed.

Lemma getitem_loop_below_total its ind :
  Forall good_item its -> ind < total_card its ->
  outcome (getitem_loop its ind) = None.
Proof.
  intros Hgood Hind. destruct (Z_lt_dec ind 0) as [Hneg|Hpos].
  - apply getitem_loop_negative; assumption.
  - destruct (@locate its ind) as (before & it & rest & -> & Hin); [lia|].
    rewrite getitem_loop_inside by assumption. simpl. apply outcome_yields.
Qed.

Lemma getitem_body_as_int self ind z :
  Forall nonempty_item (items self) -> as_int ind = Some z ->
  getitem_body self ind =
  if adjusted z (total_card (items self)) >=? total_card (items self)
  then Raise IndexOutOfRange
  else getitem_loop (items self) (adjusted z (total_card (items self))).
Proof.
  intros H Hz. unfold getitem_body. rewrite Hz.
  rewrite len_constructed by exact H. reflexivity.
Qed.

(** X10.  For every subscript [ind] with [-total <= ind < total] on a
    constructed grid, the first value of the generator is the combination
    at position [ind], counted from the end when negative, of the
    iteration. *)
Theorem getitem_first_value param_grid self combinations ind :
  wf_value param_grid = true -> __init__ param_grid = OK self ->
  list_of (__iter__ self) = OK combinations ->
  - len combinations <= ind < len combinations ->
  first_step (getitem_body self (VInt ind)) =
  Some (OK (nth (Z.to_nat (adjusted ind (len combinations))) combinations VNone)).
Proof.
  intros Hwf Hinit Hiter Hind.
  pose proof (init_good _ Hwf Hinit) as Hgood.
  rewrite iter_constructed in Hiter by exact Hgood. injection Hiter as <-.
  rewrite len_all_combos in *.
  rewrite getitem_body_int by (apply good_nonempty; exact Hgood).
  set (position := adjusted ind (total_card (items self))).
  assert (Hpos : 0 <= position < total_card (items self)).
  { unfold position, adjusted. destruct (ind <? 0) eqn:E; lia. }
  replace (position >=? total_card (items self)) with false by (symmetry; lia).
  destruct (locate (items self) Hpos) as (before & it & rest & E & Hin).
  rewrite E in *. rewrite getitem_loop_inside by assumption. reflexivity.
Qed.

Lemma getitem_first_value_witness :
  wf_value grid_kernel = true /\ __init__ grid_kernel = OK pg_kernel /\
  list_of (__iter__ pg_kernel) = OK [linear; rbf_1; rbf_10] /\
  - len [linear; rbf_1; rbf_10] <= -2 < len [linear; rbf_1; rbf_10] /\
  first_step (getitem_body pg_kernel (VInt (-2))) =
  Some (OK (nth (Z.to_nat (adjusted (-2) (len [linear; rbf_1; rbf_10])))
                [linear; rbf_1; rbf_10] VNone)).
Proof.
  split; [reflexivity|]. split; [reflexivity|]. split; [reflexivity|].
  split; [vm_compute; split; congruence|].
  apply (@getitem_first_value grid_kernel pg_kernel [linear; rbf_1; rbf_10] (-2));
    try reflexivity.
  vm_compute; split; congruence.
Defined.

(** X11.  On a grid constructed from a single dictionary, the generator of
    a subscript within range yields exactly one value, the combination at
    that position of the iteration. *)
Theorem getitem_single_grid param_grid self combinations ind :
  is_dict param_grid = true ->
  wf_value param_grid = true -> __init__ param_grid = OK self ->
  list_of (__iter__ self) = OK combinations ->
  - len combinations <= ind < len combinations ->
  list_of (getitem_body self (VInt ind)) =
  OK [nth (Z.to_nat (adjusted ind (len combinations))) combinations VNone].
Proof.
  intros Hdict Hwf Hinit Hiter Hind.
  pose proof (init_good _ Hwf Hinit) as Hgood.
  assert (Hone : exists it, items self = [it]).
  { pose proof (init_items _ Hinit) as H2.
    destruct param_grid; try discriminate. simpl in H2.
    inversion H2 as [|? it ? its _ Hrest]; subst. inversion Hrest; subst.
    eauto. }
  destruct Hone as [it Hit].
  rewrite iter_constructed in Hiter by exact Hgood. injection Hiter as <-.
  rewrite len_all_combos in *.
  rewrite getitem_body_int by (apply good_nonempty; exact Hgood).
  set (position := adjusted ind (total_card (items self))).
  assert (Hpos : 0 <= position < total_card (items self)).
  { unfold position, adjusted. destruct (ind <? 0) eqn:E; lia. }
  replace (position >=? total_card (items self)) with false by (symmetry; lia).
  rewrite Hit in *. simpl in Hpos.
  pose proof (@getitem_loop_inside [] it [] position) as Hloop.
  change ([] ++ [it]) with [it] in Hloop.
  rewrite Hloop; [reflexivity|exact Hgood|simpl; lia].
Qed.

Lemma getitem_single_grid_witness :
  is_dict grid_a12 = true /\ wf_value grid_a12 = true /\
  __init__ grid_a12 = OK pg_a12 /\
  list_of (__iter__ pg_a12) = OK [VDict [("a", VInt 1)]; VDict [("a", VInt 2)]] /\
  list_of (getitem_body pg_a12 (VInt (-1))) =
  OK [nth (Z.to_nat (adjusted (-1)
                      (len [VDict [("a", VInt 1)]; VDict [("a", VInt 2)]])))
          [VDict [("a", VInt 1)]; VDict [("a", VInt 2)]] VNone].
Proof.
  split; [reflexivity|]. split; [reflexivity|]. split; [reflexivity|].
  split; [reflexivity|].
  apply (@getitem_single_grid grid_a12 pg_a12
           [VDict [("a", VInt 1)]; VDict [("a", VInt 2)]] (-1));
    try reflexivity.
  vm_compute; split; congruence.
Defined.

(** X12.  How the generator of a subscript on a constructed grid ends.  A
    subscript that is not an [int] (a [bool] is one) raises TypeError and an
    integer that, after the adjustment of a negative one, is at or above the
    total raises IndexError, both before any value is yielded; every other
    integer, also one below [-total], ends without an exception. *)
Theorem getitem_exceptions param_grid self total ind :
  wf_value param_grid = true -> __init__ param_grid = OK self ->
  __len__ self = OK total ->
  match as_int ind with
  | None => getitem_body self ind = Raise IndexNotInteger
  | Some z =>
      if adjusted z total >=? total
      then getitem_body self ind = Raise IndexOutOfRange
      else outcome (getitem_body self ind) = None
  end.
Proof.
  intros Hwf Hinit Hlen.
  pose proof (init_good _ Hwf Hinit) as Hgood.
  pose proof (good_nonempty Hgood) as Hne.
  rewrite len_constructed in Hlen by exact Hne. injection Hlen as <-.
  destruct (as_int ind) as [z|] eqn:Hz.
  - rewrite (@getitem_body_as_int _ _ _ Hne Hz).
    destruct (adjusted z (total_card (items self)) >=? total_card (items self))
      eqn:E; [reflexivity|].
    apply getitem_loop_below_total; [exact Hgood|lia].
  - apply getitem_not_int. exact Hz.
Qed.

Lemma getitem_exceptions_witness :
  wf_value grid_kernel = true /\ __init__ grid_kernel = OK pg_kernel /\
  __len__ pg_kernel = OK 3 /\
  match as_int (VInt (-7)) with
  | None => getitem_body pg_kernel (VInt (-7)) = Raise IndexNotInteger
  | Some z =>
      if adjusted z 3 >=? 3
      then getitem_body pg_kernel (VInt (-7)) = Raise IndexOutOfRange
      else outcome (getitem_body pg_kernel (VInt (-7))) = None
  end.
Proof.
  split; [reflexivity|]. split; [reflexivity|]. split; [reflexivity|].
  apply (@getitem_exceptions grid_kernel pg_kernel 3 (VInt (-7))); reflexivity.
Defined.

(** ** Lists of Grids *)

Lemma list_map_app (A B : Type) (f : A -> result B) xs1 xs2 ys1 ys2 :
  list_map f xs1 = OK ys1 -> list_map f xs2 = OK ys2 ->
  list_map f (xs1 ++ xs2) = OK (ys1 ++ ys2).
Proof.
  revert ys1. induction xs1 as [|x xs1 IH]; intros ys1 H1 H2; simpl in *.
  - injection H1 as <-. exact H2.
  - apply bind_OK in H1 as (y & Hy & H1). apply bind_OK in H1 as (ys & Hys & H1).
    injection H1 as <-. rewrite Hy. simpl. rewrite (IH _ Hys H2). reflexivity.
Qed.

(** X13.  A list of Grids is the disjoint union of its parts: constructing
    from the concatenation of two accepted lists of Grids succeeds, and its
    iteration is the iteration of the first list followed by that of the
    second, its length the sum of the two lengths. *)
Theorem init_concat grids1 grids2 self1 self2 combinations1 combinations2 :
  wf_value (VList grids1) = true -> wf_value (VList grids2) = true ->
  __init__ (VList grids1) = OK self1 -> __init__ (VList grids2) = OK self2 ->
  list_of (__iter__ self1) = OK combinations1 ->
  list_of (__iter__ self2) = OK combinations2 ->
  exists self,
    __init__ (VList (grids1 ++ grids2)) = OK self /\
    list_of (__iter__ self) = OK (combinations1 ++ combinations2) /\
    __len__ self = OK (len combinations1 + len combinations2).
Proof.
  intros Hwf1 Hwf2 Hinit1 Hinit2 Hiter1 Hiter2.
  pose proof (init_good _ Hwf1 Hinit1) as Hgood1.
  pose proof (init_good _ Hwf2 Hinit2) as Hgood2.
  rewrite iter_constructed in Hiter1, Hiter2 by assumption.
  injection Hiter1 as <-. injection Hiter2 as <-.
  unfold __init__ in Hinit1, Hinit2.
  apply bind_OK in Hinit1 as (its1 & Hits1 & H1). injection H1 as <-.
  apply bind_OK in Hinit2 as (its2 & Hits2 & H2). injection H2 as <-.
  simpl in *.
  exists {| items := its1 ++ its2 |}.
  assert (Hgood : Forall good_item (its1 ++ its2))
    by (apply Forall_app; split; assumption).
  split; [|split].
  - unfold __init__. rewrite (list_map_app _ _ _ Hits1 Hits2). reflexivity.
  - rewrite iter_constructed by exact Hgood. simpl. unfold all_combos.
    rewrite flat_map_app. reflexivity.
  - rewrite len_constructed by (apply good_nonempty; exact Hgood). simpl.
    rewrite total_card_app, !len_all_combos. reflexivity.
Qed.

Lemma init_concat_witness :
  wf_value (VList [grid_a12]) = true /\ wf_value grid_kernel = true /\
  __init__ (VList [grid_a12]) = OK pg_a12 /\
  __init__ grid_kernel = OK pg_kernel /\
  exists self,
    __init__ (VList ([grid_a12] ++ grids_of grid_kernel)) = OK self /\
    list_of (__iter__ self) =
    OK ([VDict [("a", VInt 1)]; VDict [("a", VInt 2)]]
        ++ [linear; rbf_1; rbf_10]) /\
    __len__ self =
    OK (len [VDict [("a", VInt 1)]; VDict [("a", VInt 2)]]
        + len [linear; rbf_1; rbf_10]).
Proof.
  split; [reflexivity|]. split; [reflexivity|]. split; [reflexivity|].
  split; [reflexivity|].
  apply (@init_concat [grid_a12] (grids_of grid_kernel) pg_a12 pg_kernel);
    reflexivity.
Defined.

Lemma total_card_ge_length its :
  Forall nonempty_item its -> len its <= total_card its.
Proof.
  induction 1 as [|it its (_ & _ & Hall) _ IH]; [unfold len; simpl; lia|].
  apply card_pos in Hall. simpl total_card. unfold len in *.
  change (List.length (it :: its)) with (S (List.length its)). lia.
Qed.

(** X14.  Every Grid of a constructed grid contributes at least one
    combination: the length is at least the number of Grids, and it is 0
    only for the empty list of Grids. *)
Theorem len_zero_iff param_grid self total :
  __init__ param_grid = OK self -> __len__ self = OK total ->
  len (grids_of param_grid) <= total /\
  (total = 0 <-> param_grid = VList []).
Proof.
  intros Hinit Hlen. pose proof (init_nonempty _ Hinit) as Hne.
  rewrite len_constructed in Hlen by exact Hne. injection Hlen as <-.
  pose proof (init_items _ Hinit) as Hitems.
  pose proof (Forall2_length Hitems) as Hlength.
  pose proof (total_card_ge_length Hne) as Hge.
  unfold len in *. split; [lia|]. split.
  - intros H0. destruct param_grid as [|b|z|s|l|m]; try discriminate.
    + destruct l; [reflexivity|]. simpl in Hlength. lia.
    + simpl in Hlength. lia.
  - intros ->. injection Hinit as <-. reflexivity.
Qed.

Lemma len_zero_iff_witness :
  __init__ grid_kernel = OK pg_kernel /\ __len__ pg_kernel = OK 3 /\
  len (grids_of grid_kernel) <= 3 /\ (3 = 0 <-> grid_kernel = VList []).
Proof.
  split; [reflexivity|]. split; [reflexivity|].
  apply (@len_zero_iff grid_kernel pg_kernel 3); reflexivity.
Defined.

(** ** The digits of the decomposition *)

(** X15.  The loop of lines 117-122 on non-empty value lists, for every
    integer [ind]: position [j] of [value_list] holds the element of
    [values[j]] whose index is the digit [(ind // r) % len(values[j])], [r]
    being the product of the lengths of the later lists (so the last position
    varies fastest), and [ind] is left divided by the product of all the
    lengths. *)
Theorem decompose_digits values : forall ind j,
  Forall (fun value_list => value_list <> []) values ->
  (j < List.length values)%nat ->
  exists value_list,
    decompose values ind = OK (value_list, ind / radix values) /\
    nth j value_list VNone =
    nth (Z.to_nat ((ind / radix (skipn (S j) values)) mod len (nth j values [])))
        (nth j values []) VNone.
Proof.
  induction values as [|value_list_0 later IH]; intros ind j Hall Hj;
    [simpl in Hj; lia|].
  inversion Hall as [|? ? Hne Hlater]; subst.
  pose proof (decompose_spec Hlater ind) as Hspec.
  assert (Hw : 0 < len value_list_0).
  { apply len_pos in Hne. apply Z.eqb_neq in Hne. unfold len in *. lia. }
  assert (Hc : 0 < card later) by (apply card_pos in Hlater; lia).
  simpl decompose. rewrite Hspec. simpl bind.
  replace (len value_list_0 =? 0) with false by (symmetry; apply Z.eqb_neq; lia).
  eexists. split.
  - f_equal. f_equal. unfold radix. simpl.
    rewrite <- card_fold, Z.div_div by lia. f_equal. lia.
  - destruct j as [|j]; simpl.
    + unfold radix. rewrite <- card_fold. reflexivity.
    + simpl in Hj. destruct (IH ind j Hlater) as (value_list & Hd & Hnth);
        [lia|].
      rewrite Hspec in Hd. injection Hd as <- _. exact Hnth.
Qed.

Lemma decompose_digits_witness :
  Forall (fun value_list : list value => value_list <> [])
         [[VStr "rbf"]; [VInt 1; VInt 10]] /\
  exists value_list,
    decompose [[VStr "rbf"]; [VInt 1; VInt 10]] 1 =
    OK (value_list, 1 / radix [[VStr "rbf"]; [VInt 1; VInt 10]]) /\
    nth 1 value_list VNone =
    nth (Z.to_nat
           ((1 / radix (skipn 2 [[VStr "rbf"]; [VInt 1; VInt 10]]))
            mod len (nth 1 [[VStr "rbf"]; [VInt 1; VInt 10]] [])))
        (nth 1 [[VStr "rbf"]; [VInt 1; VInt 10]] []) VNone.
Proof.
  assert (H : Forall (fun value_list : list value => value_list <> [])
                     [[VStr "rbf"]; [VInt 1; VInt 10]])
    by (repeat constructor; discriminate).
  split; [exact H|].
  apply (@decompose_digits [[VStr "rbf"]; [VInt 1; VInt 10]] 1 1 H).
  simpl. lia.
Defined.

(** ** Iterating a nested Grid *)

Lemma extract_items_paths grid keys values :
  extract_items grid = OK (keys, values) ->
  keys <> [] /\ List.length keys = List.length values /\
  Forall (fun p : path => p <> []) keys.
Proof.
  intros H. apply traverse_dict_ok in H
    as (nk & nv & [E L V] & Hne & Hform & _).
  simpl in E. injection E as -> ->. split; [exact Hne|]. split; [exact L|].
  eapply Forall_impl; [|exact Hform]. intros p (k & r & ->). discriminate.
Qed.

Lemma length_in_product (A : Type) (pools : list (list A)) : forall t,
  In t (itertools_product pools) -> List.length t = List.length pools.
Proof.
  induction pools as [|pool pools IH]; intros t Hin; simpl in Hin.
  - destruct Hin as [<-|[]]. reflexivity.
  - apply in_flat_map in Hin as (x & _ & Hin).
    apply in_map_iff in Hin as (t' & <- & Hin'). simpl. rewrite (IH _ Hin').
    reflexivity.
Qed.

Lemma combine_nest key (keys : list path) : forall (values : list value),
  combine (map (cons key) keys) values = map (nest_pair key) (combine keys values).
Proof.
  induction keys as [|p keys IH]; intros [|v values]; simpl; try reflexivity.
  rewrite IH. reflexivity.
Qed.

Lemma descend_single key d0 : descend [(key, d0)] key = d0.
Proof. unfold descend. simpl. rewrite String.eqb_refl. reflexivity. Qed.

Lemma ensure_single key d0 : ensure [(key, d0)] key = [(key, d0)].
Proof. unfold ensure, dict_mem. simpl. rewrite String.eqb_refl. reflexivity. Qed.

Lemma dict_set_single key d0 c : dict_set [(key, d0)] key c = [(key, c)].
Proof. simpl. rewrite String.eqb_refl. reflexivity. Qed.

Lemma set_path_nested key q v d0 c :
  q <> [] -> set_path d0 q v = OK c ->
  set_path (VDict [(key, d0)]) (key :: q) v = OK (VDict [(key, c)]).
Proof.
  intros Hq H. destruct q as [|k2 r]; [congruence|].
  rewrite set_path_long, descend_single, ensure_single, H. unfold bind.
  rewrite dict_set_single. reflexivity.
Qed.

Lemma set_path_nested_first key q v c :
  q <> [] -> set_path (VDict []) q v = OK c ->
  set_path (VDict []) (key :: q) v = OK (VDict [(key, c)]).
Proof.
  intros Hq H. destruct q as [|k2 r]; [congruence|].
  rewrite set_path_long.
  change (descend [] key) with (VDict []).
  change (ensure [] key) with [(key, VDict [])].
  rewrite H. unfold bind. rewrite dict_set_single. reflexivity.
Qed.

Lemma generate_params_loop_cons q v pairs d :
  generate_params_loop ((q, v) :: pairs) d =
  (params' <- set_path d q v ;; generate_params_loop pairs params').
Proof. reflexivity. Qed.

Lemma generate_params_loop_nested key pairs : forall d0 c,
  Forall (fun pv : path * value => fst pv <> []) pairs ->
  generate_params_loop pairs d0 = OK c ->
  generate_params_loop (map (nest_pair key) pairs) (VDict [(key, d0)]) =
  OK (VDict [(key, c)]).
Proof.
  induction pairs as [|[q v] pairs IH]; intros d0 c Hall H.
  - simpl in *. injection H as <-. reflexivity.
  - rewrite generate_params_loop_cons in H.
    apply bind_OK in H as (d1 & Hd1 & H).
    inversion Hall as [|? ? Hq Hrest]; subst. simpl in Hq.
    change (map (nest_pair key) ((q, v) :: pairs))
      with ((key :: q, v) :: map (nest_pair key) pairs).
    rewrite generate_params_loop_cons.
    rewrite (@set_path_nested key _ _ _ _ Hq Hd1). unfold bind.
    apply IH; assumption.
Qed.

Lemma generate_params_nested key keys value_tuple c :
  Forall (fun p : path => p <> []) keys ->
  combine keys value_tuple <> [] ->
  generate_params keys value_tuple = OK c ->
  generate_params (map (cons key) keys) value_tuple = OK (VDict [(key, c)]).
Proof.
  unfold generate_params. rewrite combine_nest. intros Hall Hne H.
  assert (Hpairs : Forall (fun pv : path * value => fst pv <> [])
                          (combine keys value_tuple)).
  { apply Forall_forall. intros [q v] Hin. apply in_combine_l in Hin.
    rewrite Forall_forall in Hall. apply Hall. exact Hin. }
  destruct (combine keys value_tuple) as [|[q v] pairs]; [congruence|].
  rewrite generate_params_loop_cons in H.
  apply bind_OK in H as (d1 & Hd1 & H).
  inversion Hpairs as [|? ? Hq Hrest]; subst. simpl in Hq.
  change (map (nest_pair key) ((q, v) :: pairs))
    with ((key :: q, v) :: map (nest_pair key) pairs).
  rewrite generate_params_loop_cons.
  rewrite (@set_path_nested_first key _ _ _ Hq Hd1). unfold bind.
  apply generate_params_loop_nested; assumption.
Qed.

Lemma yield_params_cons keys t tuples after :
  yield_params keys (t :: tuples) after =
  match generate_params keys t with
  | OK params => Yield params (yield_params keys tuples after)
  | Err e => Raise e
  end.
Proof. reflexivity. Qed.

Lemma yield_params_nested key keys tuples : forall combinations,
  Forall (fun p : path => p <> []) keys ->
  Forall (fun value_tuple : list value => combine keys value_tuple <> []) tuples ->
  list_of (yield_params keys tuples Stop) = OK combinations ->
  list_of (yield_params (map (cons key) keys) tuples Stop) =
  OK (map (fun c => VDict [(key, c)]) combinations).
Proof.
  induction tuples as [|t tuples IH]; intros combinations Hkeys Hall H.
  - simpl in *. injection H as <-. reflexivity.
  - inversion Hall as [|? ? Ht Hrest]; subst.
    rewrite yield_params_cons in H |- *.
    destruct (generate_params keys t) as [c|e] eqn:Hg; [|discriminate].
    simpl in H. apply bind_OK in H as (cs & Hcs & H). injection H as <-.
    rewrite (@generate_params_nested key _ _ _ Hkeys Ht Hg). simpl.
    rewrite (IH _ Hkeys Hrest Hcs). reflexivity.
Qed.

(** X16.  Nesting a Grid under a key nests every combination under that
    key: the grid constructed from [{key: grid}] iterates over the
    dictionaries [{key: c}], for [c] in the iteration of the grid constructed
    from [grid], in the same order. *)
Theorem iter_nested key grid self combinations :
  is_dict grid = true -> __init__ grid = OK self ->
  list_of (__iter__ self) = OK combinations ->
  exists self',
    __init__ (VDict [(key, grid)]) = OK self' /\
    list_of (__iter__ self') =
    OK (map (fun c => VDict [(key, c)]) combinations).
Proof.
  intros Hdict Hinit Hiter.
  destruct grid as [|b|z|s|l|m]; try discriminate.
  unfold __init__, list_map in Hinit.
  apply bind_OK in Hinit as (its & Hits & Hinit). injection Hinit as <-.
  apply bind_OK in Hits as ([keys values] & Hex & Hits).
  simpl in Hits. injection Hits as <-.
  exists {| items := [(map (cons key) keys, values)] |}. split.
  - unfold __init__, list_map.
    rewrite (@extract_items_nest key _ _ _ Hex). reflexivity.
  - unfold __iter__ in *. simpl in *.
    destruct (@extract_items_paths _ _ _ Hex) as (Hne & Hlen & Hpaths).
    apply yield_params_nested; [exact Hpaths| |exact Hiter].
    apply Forall_forall. intros t Hin Hnil.
    apply (f_equal (@List.length _)) in Hnil.
    rewrite length_combine, (@length_in_product _ _ _ Hin), <- Hlen in Hnil.
    simpl in Hnil. destruct keys; [congruence|simpl in Hnil; lia].
Qed.

Lemma iter_nested_witness :
  is_dict grid_a12 = true /\ __init__ grid_a12 = OK pg_a12 /\
  list_of (__iter__ pg_a12) = OK [VDict [("a", VInt 1)]; VDict [("a", VInt 2)]] /\
  exists self',
    __init__ (VDict [("outer", grid_a12)]) = OK self' /\
    list_of (__iter__ self') =
    OK (map (fun c => VDict [("outer", c)])
            [VDict [("a", VInt 1)]; VDict [("a", VInt 2)]]).
Proof.
  split; [reflexivity|]. split; [reflexivity|]. split; [reflexivity|].
  apply (@iter_nested "outer" grid_a12 pg_a12); reflexivity.
Defined.

(** ** No combination twice *)

Lemma NoDup_itertools_product (A : Type) (pools : list (list A)) :
  Forall (@NoDup A) pools -> NoDup (itertools_product pools).
Proof.
  induction 1 as [|pool pools Hpool _ IH]; simpl.
  - constructor; [intros []|constructor].
  - induction Hpool as [|x pool Hx _ IHpool]; simpl; [constructor|].
    apply NoDup_app; [|exact IHpool|].
    + apply NoDup_map_NoDup_ForallPairs; [|exact IH].
      intros a b _ _ [= ->]. reflexivity.
    + intros t Ht Hin. apply in_map_iff in Ht as (t1 & <- & _).
      apply in_flat_map in Hin as (y & Hy & Hin).
      apply in_map_iff in Hin as (t2 & [= <- _] & _). contradiction.
Qed.

Lemma generate_params_injective keys t1 t2 params :
  ForallOrdPairs incomparable keys ->
  List.length t1 = List.length keys -> List.length t2 = List.length keys ->
  generate_params keys t1 = OK params -> generate_params keys t2 = OK params ->
  t1 = t2.
Proof.
  intros Hfree L1 L2 H1 H2. unfold generate_params in H1, H2.
  apply (nth_ext _ _ VNone VNone); [congruence|]. intros n Hn.
  assert (Hin : forall t : list value, List.length t = List.length keys ->
                  In (nth n keys [], nth n t VNone) (combine keys t)).
  { intros t Lt. rewrite <- combine_nth by congruence.
    apply nth_In. rewrite length_combine. lia. }
  pose proof (@generate_params_loop_get _ _ _ _ H1 Hfree _ _ (Hin t1 L1)) as G1.
  pose proof (@generate_params_loop_get _ _ _ _ H2 Hfree _ _ (Hin t2 L2)) as G2.
  congruence.
Qed.

(** X17.  A grid constructed from a single dictionary none of whose value
    lists holds the same value twice yields no combination twice (values
    compared structurally). *)
Theorem iter_no_repetition param_grid self combinations :
  is_dict param_grid = true ->
  wf_value param_grid = true -> __init__ param_grid = OK self ->
  Forall (fun it : item => Forall (@NoDup value) (snd it)) (items self) ->
  list_of (__iter__ self) = OK combinations ->
  NoDup combinations.
Proof.
  intros Hdict Hwf Hinit Hnd Hiter.
  pose proof (init_good _ Hwf Hinit) as Hgood.
  pose proof (@init_paths_free _ _ Hwf Hinit) as Hfree.
  assert (Hone : exists it, items self = [it]).
  { pose proof (init_items _ Hinit) as H2.
    destruct param_grid; try discriminate. simpl in H2.
    inversion H2 as [|? it ? its _ Hrest]; subst. inversion Hrest; subst.
    eauto. }
  destruct Hone as [[keys values] Hit].
  rewrite iter_constructed in Hiter by exact Hgood. injection Hiter as <-.
  rewrite Hit in *. unfold all_combos. simpl. rewrite app_nil_r.
  inversion Hgood as [|? ? [(_ & Hlen & _) Hkeys] _]; subst.
  inversion Hfree as [|? ? Hinc _]; subst.
  inversion Hnd as [|? ? Hvalues _]; subst. simpl in *.
  unfold combos. simpl.
  apply NoDup_map_NoDup_ForallPairs;
    [|apply NoDup_itertools_product; exact Hvalues].
  intros t1 t2 Hin1 Hin2 Heq.
  apply (@generate_params_injective keys t1 t2 (params_of keys t1)); auto.
  - rewrite (@length_in_product _ _ _ Hin1). congruence.
  - rewrite (@length_in_product _ _ _ Hin2). congruence.
  - apply generate_params_params_of. exact Hkeys.
  - rewrite Heq. apply generate_params_params_of. exact Hkeys.
Qed.

Lemma iter_no_repetition_witness :
  is_dict grid_ab = true /\ wf_value grid_ab = true /\
  __init__ grid_ab = OK {| items := [([["a"; "b"]; ["a"; "c"]],
                         [[VInt 1; VInt 2]; [VBool true; VBool false]])] |} /\
  NoDup [VDict [("a", VDict [("b", VInt 1); ("c", VBool true)])];
         VDict [("a", VDict [("b", VInt 1); ("c", VBool false)])];
         VDict [("a", VDict [("b", VInt 2); ("c", VBool true)])];
         VDict [("a", VDict [("b", VInt 2); ("c", VBool false)])]].
Proof.
  split; [reflexivity|]. split; [reflexivity|]. split; [reflexivity|].
  apply (@iter_no_repetition grid_ab
           {| items := [([["a"; "b"]; ["a"; "c"]],
                         [[VInt 1; VInt 2]; [VBool true; VBool false]])] |});
    try reflexivity.
  repeat constructor; simpl; intuition discriminate.
Defined.
